(** * Placement solver: a shallow embedding of [placement_solver.py]

    The solver places rectangular appliances in a polygonal room.  Python
    floats are idealised as exact rationals [Q]; [float('inf')] and the
    values derived from it live in [PyFloat].  The polygon predicates come
    from the shapely library, which is not part of the program: they are the
    fields of the class [Kernel], and every result below holds for every
    instance of it.  A polygon is kept as the list of its vertices; the
    checks shapely makes when it builds one are not modelled, nor is
    console output ([print]). *)

From Stdlib Require Import ZArith QArith Qround Qabs List String Ascii Bool.
From Stdlib Require Import Lia Lqa Permutation Sorted.
Import ListNotations.

Local Open Scope string_scope.
Local Open Scope list_scope.
Local Open Scope Q_scope.

(** ** Python exceptions *)

Inductive PyError : Set := ZeroDivisionError | IndexError.

Definition Exc (A : Type) : Type := (PyError + A)%type.

Definition ret {A : Type} (a : A) : Exc A := inr a.
Definition raise {A : Type} (e : PyError) : Exc A := inl e.
Definition bind {A B : Type} (c : Exc A) (k : A -> Exc B) : Exc B :=
  match c with
  | inl e => inl e
  | inr a => k a
  end.

Notation "x <- c ;; k" := (bind c (fun x => k))
  (at level 61, c at next level, right associativity).

(** [a / b] on Python numbers raises when the divisor is zero. *)
Definition py_div (a b : Q) : Exc Q :=
  if Qeq_bool b 0 then raise ZeroDivisionError else ret (a / b).

(** [lst[i]] *)
Definition py_index {A : Type} (l : list A) (i : nat) : Exc A :=
  match nth_error l i with
  | Some a => ret a
  | None => raise IndexError
  end.

(** ** Numbers *)

Definition Qltb (a b : Q) : bool := negb (Qle_bool b a).

(** Python's [min(a, b)] and [max(a, b)]: the first argument wins a tie. *)
Definition py_min (a b : Q) : Q := if Qltb b a then b else a.
Definition py_max (a b : Q) : Q := if Qltb a b then b else a.

(** Floats that may be infinite: [min_wall_distance] starts at
    [float('inf')], and the score of a room without walls is [-inf]. *)
Inductive PyFloat : Set :=
| NegInf
| Fin (q : Q)
| PosInf.

Definition float_ltb (a b : PyFloat) : bool :=
  match a, b with
  | NegInf, NegInf => false
  | NegInf, _ => true
  | Fin _, NegInf => false
  | Fin x, Fin y => Qltb x y
  | Fin _, PosInf => true
  | PosInf, _ => false
  end.

Definition float_lt (a b : PyFloat) : Prop := float_ltb a b = true.

(** [min(m, d)] with a finite [d]. *)
Definition float_min (m : PyFloat) (d : Q) : PyFloat :=
  if float_ltb (Fin d) m then Fin d else m.

(** [a - m] with a finite [a]. *)
Definition float_sub (a : Q) (m : PyFloat) : PyFloat :=
  match m with
  | NegInf => PosInf
  | Fin d => Fin (a - d)
  | PosInf => NegInf
  end.

(** [numpy.arange(start, stop, step)] for a positive step: the values
    [start + i * step] for [i < ceil((stop - start) / step)]. *)
Definition arange (start stop step : Q) : list Q :=
  map (fun i : nat => start + inject_Z (Z.of_nat i) * step)
      (seq 0 (Z.to_nat (Qceiling ((stop - start) / step)))).

(** ** Sorting

    [list.sort(key=...)] is stable and compares keys with [<] only.  The
    stable sorted arrangement of a list is unique, so insertion sort stands
    for it.  With [reverse=True] the order is descending and elements with
    equal keys keep their original order. *)

Section Sort.
Variables (A K : Type) (ltb : K -> K -> bool) (key : A -> K).

Fixpoint insert_sorted (x : A) (l : list A) : list A :=
  match l with
  | [] => [x]
  | y :: l' =>
      if ltb (key y) (key x) then y :: insert_sorted x l' else x :: y :: l'
  end.

Definition list_sort (l : list A) : list A := fold_right insert_sorted [] l.
End Sort.

Arguments insert_sorted {A K} ltb key x l.
Arguments list_sort {A K} ltb key l.

Definition list_sort_reverse {A K : Type} (ltb : K -> K -> bool)
    (key : A -> K) (l : list A) : list A :=
  list_sort (fun a b => ltb b a) key l.

(** ** Data model *)

Definition Point : Type := (Q * Q)%type.

(** A shapely [Polygon] is given by the vertices of its exterior ring;
    a [LineString] here always has two points. *)
Definition Polygon : Type := list Point.
Definition LineString : Type := (Point * Point)%type.

Module Item.
Record t : Type := mk {
  name : string;
  length : Q;
  width : Q;
  item_type : string  (* fridge, shelf, overShelf, iceMaker *)
}.

Definition get_area (self : t) : Q := length self * width self.
End Item.

Module Placement.
Record t : Type := mk {
  item : Item.t;
  center : Point;
  rotation : Z  (* 0 or 90 *)
}.

(** The JSON object a placement is reported as. *)
Record dict : Type := mk_dict {
  d_item : string;
  d_center : list Q;
  d_rotation : Z
}.

Definition to_dict (self : t) : dict :=
  {| d_item := Item.name (item self);
     d_center := [fst (center self); snd (center self)];
     d_rotation := rotation self |}.
End Placement.

(** The dictionary [solve] returns; [message] is [None] when the key is
    absent. *)
Record Result : Type := mk_result {
  feasible : bool;
  placements_out : list Placement.dict;
  message : option string
}.

(** ** The geometry kernel (shapely, [math.sqrt]) *)

Class Kernel : Type := {
  (* polygon.contains(polygon) *)
  contains : Polygon -> Polygon -> bool;
  (* polygon.contains(Point(x, y)) *)
  contains_point : Polygon -> Point -> bool;
  (* polygon.intersects(polygon) *)
  intersects : Polygon -> Polygon -> bool;
  (* polygon.distance(line) *)
  distance : Polygon -> LineString -> Q;
  (* line.length *)
  line_length : LineString -> Q;
  (* line.buffer(d) *)
  buffer : LineString -> Q -> Polygon;
  (* polygon.bounds: (minx, miny, maxx, maxy) *)
  bounds : Polygon -> Q * Q * Q * Q;
  (* math.sqrt *)
  sqrt : Q -> Q
}.

(** A geometry is truthy unless it is empty; a polygon built from a vertex
    list is empty exactly when the list is. *)
Definition is_empty (p : Polygon) : bool :=
  match p with
  | [] => true
  | _ :: _ => false
  end.

(** ** class PlacementSolver *)

Record PlacementSolver : Type := mk_solver {
  boundary_points : list Point;
  boundary_polygon : Polygon;
  door : option (list Point);
  is_open_inward : bool;
  items : list Item.t;
  door_restricted_zone : option Polygon;
  walls : list LineString;
  placements : list Placement.t;
  placed_polygons : list Polygon;
  fridge_zones : list Polygon
}.

(** The [priority] dictionary of [_parse_items] and its lookup
    [priority.get(item_type, 4)]. *)
Definition priority : list (string * Z) :=
  [("fridge", 0); ("iceMaker", 1); ("shelf", 2); ("overShelf", 3);
   ("unknown", 4)]%Z%string.

Fixpoint dict_get {V : Type} (d : list (string * V)) (k : string) (default : V) : V :=
  match d with
  | [] => default
  | (k', v) :: d' => if String.eqb k' k then v else dict_get d' k default
  end.

(** Keys are tuples [(priority, -area)], compared lexicographically. *)
Definition sort_key (x : Item.t) : Z * Q :=
  (dict_get priority (Item.item_type x) 4%Z, - Item.get_area x).

Definition key_ltb (a b : Z * Q) : bool :=
  if Z.eqb (fst a) (fst b) then Qltb (snd a) (snd b) else Z.ltb (fst a) (fst b).

Definition startswith (s p : string) : bool := String.prefix p s.

Definition parse_item (name : string) (dims : list Q) : Exc Item.t :=
  let item_type :=
    if startswith name "fridge" then "fridge"
    else if startswith name "iceMaker" then "iceMaker"
    else if startswith name "overShelf" then "overShelf"
    else if startswith name "shelf" then "shelf"
    else "unknown" in
  d0 <- py_index dims 0 ;;
  d1 <- py_index dims 1 ;;
  ret (Item.mk name d0 d1 item_type).

(** The dictionary of the catalog is walked in insertion order. *)
Fixpoint parse_all (items_dict : list (string * list Q)) : Exc (list Item.t) :=
  match items_dict with
  | [] => ret []
  | (name, dims) :: rest =>
      it <- parse_item name dims ;;
      its <- parse_all rest ;;
      ret (it :: its)
  end.

Definition _parse_items (items_dict : list (string * list Q)) : Exc (list Item.t) :=
  its <- parse_all items_dict ;;
  ret (list_sort key_ltb sort_key its).

Definition _extract_walls (boundary_points : list Point) : list LineString :=
  let n := List.length boundary_points in
  map (fun i => (nth i boundary_points (0, 0),
                 nth (Nat.modulo (i + 1) n) boundary_points (0, 0)))
      (seq 0 n).

Definition _create_rectangle (center : Point) (length width : Q) (rotation : Z) : Polygon :=
  let '(cx, cy) := center in
  if Z.eqb rotation 0 then
    let half_l := length / 2 in
    let half_w := width / 2 in
    [(cx - half_l, cy - half_w); (cx + half_l, cy - half_w);
     (cx + half_l, cy + half_w); (cx - half_l, cy + half_w)]
  else
    let half_l := length / 2 in
    let half_w := width / 2 in
    [(cx - half_w, cy - half_l); (cx + half_w, cy - half_l);
     (cx + half_w, cy + half_l); (cx - half_w, cy + half_l)].

Definition _calculate_fridge_door_zone (placement : Placement.t) : option Polygon :=
  if negb (String.eqb (Item.item_type (Placement.item placement)) "fridge") then None
  else
    let '(cx, cy) := Placement.center placement in
    let length := Item.length (Placement.item placement) in
    let width := Item.width (Placement.item placement) in
    let rotation := Placement.rotation placement in
    let door_clearance := width * 1 in
    if Z.eqb rotation 0 then
      Some [(cx + length / 2, cy - width / 2);
            (cx + length / 2 + door_clearance, cy - width / 2);
            (cx + length / 2 + door_clearance, cy + width / 2);
            (cx + length / 2, cy + width / 2)]
    else
      Some [(cx - length / 2, cy + width / 2);
            (cx + length / 2, cy + width / 2);
            (cx + length / 2, cy + width / 2 + door_clearance);
            (cx - length / 2, cy + width / 2 + door_clearance)].

Section Solver.
Context {K : Kernel}.

Definition _calculate_door_zone (door : option (list Point))
    (is_open_inward : bool) : Exc (option Polygon) :=
  match door with
  | None | Some [] | Some [_] => ret None
  | Some (door_p1 :: door_p2 :: _) =>
      let door_width :=
        sqrt ((fst door_p2 - fst door_p1) ^ 2 + (snd door_p2 - snd door_p1) ^ 2) in
      if is_open_inward then
        let dx := fst door_p2 - fst door_p1 in
        let dy := snd door_p2 - snd door_p1 in
        perp_x <- py_div (- dy) door_width ;;
        perp_y <- py_div dx door_width ;;
        ret (Some [door_p1; door_p2;
                   (fst door_p2 + perp_x * door_width, snd door_p2 + perp_y * door_width);
                   (fst door_p1 + perp_x * door_width, snd door_p1 + perp_y * door_width)])
      else
        let buffer_distance := 100 in
        ret (Some (buffer (door_p1, door_p2) buffer_distance))
  end.

(** The constructor.  Its first step, [Polygon(boundary)], keeps the
    vertices here; shapely refuses some vertex lists there (it raises
    [ValueError] for a boundary of one or two points), before the catalog
    is parsed, so the code builds no solver in some cases in which this
    function returns one or reports a later exception. *)
Definition __init__ (boundary : list Point) (door : option (list Point))
    (is_open_inward : bool) (items : list (string * list Q)) : Exc PlacementSolver :=
  items' <- _parse_items items ;;
  zone <- _calculate_door_zone door is_open_inward ;;
  ret {| boundary_points := boundary;
         boundary_polygon := boundary;
         door := door;
         is_open_inward := is_open_inward;
         items := items';
         door_restricted_zone := zone;
         walls := _extract_walls boundary;
         placements := [];
         placed_polygons := [];
         fridge_zones := [] |}.

Definition _is_valid_placement (self : PlacementSolver) (center : Point)
    (item : Item.t) (rotation : Z) : bool :=
  let rect := _create_rectangle center (Item.length item) (Item.width item) rotation in
  if negb (contains (boundary_polygon self) rect) then false
  else if match door_restricted_zone self with
          | Some zone => negb (is_empty zone) && intersects rect zone
          | None => false
          end then false
  else if existsb (fun placed_poly => intersects rect placed_poly) (placed_polygons self)
  then false
  else if existsb (fun fridge_zone => intersects rect fridge_zone) (fridge_zones self)
  then false
  else true.

(** Candidates along one wall.  [dist / wall_length] is only evaluated
    inside the loop, which [arange] leaves empty unless
    [wall_length > 0], so the divisions are plain ones. *)
Definition _generate_wall_positions (wall : LineString) (item : Item.t)
    : list (Point * Z) :=
  let '(p1, p2) := wall in
  let wall_length := line_length wall in
  let dx := fst p2 - fst p1 in
  let dy := snd p2 - snd p1 in
  let is_horizontal := Qltb (Qabs dy) (Qabs dx) in
  let step := py_min 100 (wall_length / 20) in
  let step := py_max step 1 in
  flat_map (fun dist =>
    let t := dist / wall_length in
    let wall_x := fst p1 + t * dx in
    let wall_y := snd p1 + t * dy in
    let perp_x := - dy / wall_length in
    let perp_y := dx / wall_length in
    flat_map (fun rotation : Z =>
      let '(offset, length_along_wall) :=
        if Z.eqb rotation 0 then (Item.width item / 2, Item.length item)
        else (Item.length item / 2, Item.width item) in
      if Qltb wall_length (dist + length_along_wall / 2)
         || Qltb (dist - length_along_wall / 2) 0
      then []
      else
        let center_x := wall_x + perp_x * offset in
        let center_y := wall_y + perp_y * offset in
        [((center_x, center_y), rotation)])
      [0; 90]%Z)
    (arange 0 wall_length step).

Definition _generate_interior_positions (self : PlacementSolver) (item : Item.t)
    : list (Point * Z) :=
  let '(minx, miny, maxx, maxy) := bounds (boundary_polygon self) in
  let step := 200 in
  flat_map (fun x =>
    flat_map (fun y =>
      if contains_point (boundary_polygon self) (x, y)
      then map (fun rotation : Z => ((x, y), rotation)) [0; 90]%Z
      else [])
      (arange miny maxy step))
    (arange minx maxx step).

(** The loop over the walls of [_calculate_position_score]: the pair
    [(touching_walls, min_wall_distance)] after the walls seen so far. *)
Definition wall_loop (rect : Polygon) (ws : list LineString)
    (acc : nat * PyFloat) : nat * PyFloat :=
  fold_left (fun '(touching_walls, min_wall_distance) wall =>
    let distance := distance rect wall in
    let min_wall_distance := float_min min_wall_distance distance in
    (if Qltb distance 10 then S touching_walls else touching_walls,
     min_wall_distance))
    ws acc.

Definition _calculate_position_score (self : PlacementSolver) (center : Point)
    (item : Item.t) (rotation : Z) : PyFloat :=
  let rect := _create_rectangle center (Item.length item) (Item.width item) rotation in
  let score := 0 in
  let '(touching_walls, min_wall_distance) := wall_loop rect (walls self) (O, PosInf) in
  let score := score + inject_Z (Z.of_nat touching_walls) * 10000 in
  float_sub score min_wall_distance.

(** *** solve *)

Definition candidates (self : PlacementSolver) (item : Item.t) : list (Point * Z) :=
  flat_map (fun wall => _generate_wall_positions wall item) (walls self)
  ++ _generate_interior_positions self item.

Definition valid_positions (self : PlacementSolver) (item : Item.t)
    : list (PyFloat * Point * Z) :=
  flat_map (fun '(center, rotation) =>
    if _is_valid_placement self center item rotation
    then [(_calculate_position_score self center item rotation, center, rotation)]
    else [])
    (candidates self item).

(** The part of the loop body after the best position is chosen: the
    three lists are appended to, nothing else changes. *)
Definition commit (self : PlacementSolver) (item : Item.t)
    (best_center : Point) (best_rotation : Z) : PlacementSolver :=
  let placement := Placement.mk item best_center best_rotation in
  let placed_rect :=
    _create_rectangle best_center (Item.length item) (Item.width item) best_rotation in
  {| boundary_points := boundary_points self;
     boundary_polygon := boundary_polygon self;
     door := door self;
     is_open_inward := is_open_inward self;
     items := items self;
     door_restricted_zone := door_restricted_zone self;
     walls := walls self;
     placements := placements self ++ [placement];
     placed_polygons := placed_polygons self ++ [placed_rect];
     fridge_zones :=
       if String.eqb (Item.item_type item) "fridge" then
         match _calculate_fridge_door_zone placement with
         | Some fridge_zone =>
             if negb (is_empty fridge_zone)
             then fridge_zones self ++ [fridge_zone]
             else fridge_zones self
         | None => fridge_zones self
         end
       else fridge_zones self |}.

(** The position an item is committed at, or [None] when no candidate
    is valid.  The sorted list has the length of the unsorted one, so
    [valid_positions[0]] exists whenever the list is not empty. *)
Definition best_position (self : PlacementSolver) (item : Item.t)
    : option (PyFloat * Point * Z) :=
  match valid_positions self item with
  | [] => None
  | v :: vs =>
      Some (hd v (list_sort_reverse float_ltb (fun x => fst (fst x)) (v :: vs)))
  end.

Definition infeasible_message (item : Item.t) : string :=
  "无法摆放物品: " ++ Item.name item.

Fixpoint solve_loop (self : PlacementSolver) (todo : list Item.t)
    : PlacementSolver * Result :=
  match todo with
  | [] =>
      (self, {| feasible := true;
                placements_out := map Placement.to_dict (placements self);
                message := None |})
  | item :: rest =>
      match best_position self item with
      | None =>
          (self, {| feasible := false;
                    placements_out := map Placement.to_dict (placements self);
                    message := Some (infeasible_message item) |})
      | Some (best_score, best_center, best_rotation) =>
          solve_loop (commit self item best_center best_rotation) rest
      end
  end.

(** [solve] returns the dictionary and leaves the solver mutated. *)
Definition solve (self : PlacementSolver) : PlacementSolver * Result :=
  solve_loop self (items self).
End Solver.

(** ** A kernel for rectilinear scenes

    An executable instance of [Kernel], exact where every polygon is an
    axis-parallel rectangle and every wall is axis-parallel: a polygon is
    read through its bounding box.  It serves to run the solver on concrete
    rooms. *)

Module Rectilinear.
Definition bbox (p : Polygon) : Q * Q * Q * Q :=
  match p with
  | [] => (0, 0, 0, 0)
  | (x0, y0) :: ps =>
      fold_left (fun '(minx, miny, maxx, maxy) '(x, y) =>
                   (py_min minx x, py_min miny y, py_max maxx x, py_max maxy y))
                ps (x0, y0, x0, y0)
  end.

Definition box_in (a b : Q * Q * Q * Q) : bool :=
  let '(ax0, ay0, ax1, ay1) := a in
  let '(bx0, by0, bx1, by1) := b in
  Qle_bool bx0 ax0 && Qle_bool by0 ay0 && Qle_bool ax1 bx1 && Qle_bool ay1 by1.

(** Closed boxes meet unless one lies strictly to one side of the other. *)
Definition box_meet (a b : Q * Q * Q * Q) : bool :=
  let '(ax0, ay0, ax1, ay1) := a in
  let '(bx0, by0, bx1, by1) := b in
  negb (Qltb ax1 bx0 || Qltb bx1 ax0 || Qltb ay1 by0 || Qltb by1 ay0).

(** The gap between the intervals [[lo1, hi1]] and [[lo2, hi2]]. *)
Definition gap (lo1 hi1 lo2 hi2 : Q) : Q :=
  py_max 0 (py_max (lo2 - hi1) (lo1 - hi2)).

(** Square root, rounded down to a multiple of [1 / den]. *)
Definition sqrt (q : Q) : Q :=
  Qmake (Z.sqrt (Qnum q * Zpos (Qden q))) (Qden q).

Definition hypot (dx dy : Q) : Q :=
  if Qeq_bool dx 0 then Qabs dy
  else if Qeq_bool dy 0 then Qabs dx
  else sqrt (dx * dx + dy * dy).

Definition contains (p r : Polygon) : bool :=
  negb (is_empty p) && negb (is_empty r) && box_in (bbox r) (bbox p).

Definition contains_point (p : Polygon) (pt : Point) : bool :=
  let '(x0, y0, x1, y1) := bbox p in
  negb (is_empty p)
  && Qltb x0 (fst pt) && Qltb (fst pt) x1 && Qltb y0 (snd pt) && Qltb (snd pt) y1.

Definition intersects (a b : Polygon) : bool :=
  negb (is_empty a) && negb (is_empty b) && box_meet (bbox a) (bbox b).

Definition distance (r : Polygon) (l : LineString) : Q :=
  let '(rx0, ry0, rx1, ry1) := bbox r in
  let '(lx0, ly0, lx1, ly1) := bbox [fst l; snd l] in
  hypot (gap rx0 rx1 lx0 lx1) (gap ry0 ry1 ly0 ly1).

Definition line_length (l : LineString) : Q :=
  hypot (fst (snd l) - fst (fst l)) (snd (snd l) - snd (fst l)).

Definition buffer (l : LineString) (d : Q) : Polygon :=
  let '(x0, y0, x1, y1) := bbox [fst l; snd l] in
  [(x0 - d, y0 - d); (x1 + d, y0 - d); (x1 + d, y1 + d); (x0 - d, y1 + d)].

#[export] Instance kernel : Kernel :=
  Build_Kernel contains contains_point intersects distance line_length
               buffer bbox sqrt.
End Rectilinear.

(** ** A concrete scenario: a 1000 x 1000 room, an inward door in the
    lower left corner, a shelf and a fridge (given in that order). *)

Module Scenario.
Import Rectilinear.

Definition boundary : list Point := [(0, 0); (1000, 0); (1000, 1000); (0, 1000)].
Definition door : option (list Point) := Some [(0, 200); (0, 0)].
Definition catalog : list (string * list Q) :=
  [("shelf1", [500; 300]); ("fridge1", [600; 400])].

Definition no_solver : PlacementSolver :=
  mk_solver [] [] None false [] None [] [] [] [].

Definition built : Exc PlacementSolver := __init__ boundary door true catalog.

Definition solver : PlacementSolver :=
  match built with
  | inr self => self
  | inl _ => no_solver
  end.

Definition no_placement : Placement.t :=
  Placement.mk (Item.mk "" 0 0 "unknown") (0, 0) 0.

(** The placements [solve] commits: the fridge first, then the shelf. *)
Definition first : Placement.t :=
  nth 0 (placements (fst (solve solver))) no_placement.
Definition second : Placement.t :=
  nth 1 (placements (fst (solve solver))) no_placement.

(** The same room with nothing to place. *)
Definition bare : PlacementSolver :=
  match __init__ boundary door true [] with
  | inr self => self
  | inl _ => no_solver
  end.

(** A 300 x 300 room and an item that is larger than the room. *)
Definition small_boundary : list Point := [(0, 0); (300, 0); (300, 300); (0, 300)].
Definition big_item : Item.t := Item.mk "shelf1" 500 500 "shelf".
Definition cramped : PlacementSolver :=
  match __init__ small_boundary None true [("shelf1", [500; 500])] with
  | inr self => self
  | inl _ => no_solver
  end.
End Scenario.

(** The door zone and the clearance zone of the first placement in the
    scenario. *)
Definition scenario_door_zone : Polygon :=
  match door_restricted_zone Scenario.solver with
  | Some zone => zone
  | None => []
  end.

Definition scenario_fridge_zone : Polygon :=
  match _calculate_fridge_door_zone Scenario.first with
  | Some zone => zone
  | None => []
  end.

(** Coordinates in lowest terms, for display. *)
Definition reduced (poly : Polygon) : Polygon :=
  map (fun pt => (Qred (fst pt), Qred (snd pt))) poly.

(** ** Vocabulary of the statements *)

(** [x] may stand before [y] in a list sorted by [key]: [key y < key x]
    fails. *)
Definition may_precede {A K : Type} (ltb : K -> K -> bool) (key : A -> K)
    (x y : A) : Prop :=
  ltb (key y) (key x) = false.

(** [x] is the first element of [l] whose key is largest. *)
Definition first_max {A K : Type} (ltb : K -> K -> bool) (key : A -> K)
    (l : list A) (x : A) : Prop :=
  exists l1 l2,
    l = l1 ++ x :: l2
    /\ (forall y, In y l1 -> ltb (key y) (key x) = true)
    /\ (forall y, In y l2 -> ltb (key x) (key y) = false).

(** The rectangle of a placement, as [solve] builds it at commit time. *)
Definition rect_of (p : Placement.t) : Polygon :=
  _create_rectangle (Placement.center p) (Item.length (Placement.item p))
                    (Item.width (Placement.item p)) (Placement.rotation p).

(** The rectangle in the words of the specification: the length runs along
    x and the width along y at rotation 0, swapped at rotation 90, around
    the center. *)
Definition extent_x (p : Placement.t) : Q :=
  if Z.eqb (Placement.rotation p) 0 then Item.length (Placement.item p)
  else Item.width (Placement.item p).

Definition extent_y (p : Placement.t) : Q :=
  if Z.eqb (Placement.rotation p) 0 then Item.width (Placement.item p)
  else Item.length (Placement.item p).

Definition centered_box (c : Point) (ex ey : Q) : Polygon :=
  [(fst c - ex / 2, snd c - ey / 2); (fst c + ex / 2, snd c - ey / 2);
   (fst c + ex / 2, snd c + ey / 2); (fst c - ex / 2, snd c + ey / 2)].

(** The clearance zones a list of placements gives rise to. *)
Definition zone_list (p : Placement.t) : list Polygon :=
  match _calculate_fridge_door_zone p with
  | Some zone => [zone]
  | None => []
  end.

Definition zones_of (ps : list Placement.t) : list Polygon := flat_map zone_list ps.

(** The solver as it stands when exactly [ps] are committed. *)
Definition state_at (self : PlacementSolver) (ps : list Placement.t) : PlacementSolver :=
  {| boundary_points := boundary_points self;
     boundary_polygon := boundary_polygon self;
     door := door self;
     is_open_inward := is_open_inward self;
     items := items self;
     door_restricted_zone := door_restricted_zone self;
     walls := walls self;
     placements := ps;
     placed_polygons := map rect_of ps;
     fridge_zones := zones_of ps |}.

Definition priority_of (x : Item.t) : Z := dict_get priority (Item.item_type x) 4%Z.

(** Equality of floats up to the value of the rational. *)
Definition float_eq (a b : PyFloat) : Prop :=
  match a, b with
  | NegInf, NegInf | PosInf, PosInf => True
  | Fin x, Fin y => x == y
  | _, _ => False
  end.

(** [m] is the least of the numbers [ds]; [inf] when there is none. *)
Definition is_minimum (m : PyFloat) (ds : list Q) : Prop :=
  match m with
  | PosInf => ds = []
  | Fin d => In d ds /\ Forall (fun d' => d <= d') ds
  | NegInf => False
  end.

Section Vocabulary.
Context {K : Kernel}.

(** The number of walls within the tolerance of the rectangle. *)
Definition touching_wall_count (self : PlacementSolver) (rect : Polygon) : nat :=
  List.length (filter (fun wall => Qltb (distance rect wall) 10) (walls self)).

(** The loop of [solve] over a list of items all of which find a place. *)
Fixpoint commit_all (self : PlacementSolver) (its : list Item.t)
    : option PlacementSolver :=
  match its with
  | [] => Some self
  | item :: rest =>
      match best_position self item with
      | None => None
      | Some (_, c, r) => commit_all (commit self item c r) rest
      end
  end.

(** What holds of a solver all of whose placements were committed by
    [solve]: the rectangles and zones are those of the placements, and
    each placement was a valid candidate when only its predecessors
    were there. *)
Definition committed_by_solve (self : PlacementSolver) : Prop :=
  placed_polygons self = map rect_of (placements self)
  /\ fridge_zones self = zones_of (placements self)
  /\ forall pre p post,
       placements self = pre ++ p :: post ->
       _is_valid_placement (state_at self pre) (Placement.center p)
                           (Placement.item p) (Placement.rotation p) = true
       /\ In (Placement.center p, Placement.rotation p)
             (candidates (state_at self pre) (Placement.item p)).
End Vocabulary.

(** The priority of a category in the words of the specification:
    fridge 0, iceMaker 1, shelf 2, overShelf 3, anything else 4, the
    category being read off the prefix of the name. *)
Definition categoryPriority (name : string) : Z :=
  if startswith name "fridge" then 0
  else if startswith name "iceMaker" then 1
  else if startswith name "shelf" then 2
  else if startswith name "overShelf" then 3
  else 4.

(** The order of the specification: lower priority first, and within a
    category the larger area first. *)
Definition goes_no_later (x y : Item.t) : Prop :=
  (priority_of x < priority_of y)%Z
  \/ (priority_of x = priority_of y /\ Item.get_area y <= Item.get_area x).

(** In [l], an item of a lower category index stands before one of a
    higher index, and within a category a larger item stands before a
    smaller one. *)
Definition priority_ordered (l : list Item.t) : Prop :=
  forall i j x y,
    nth_error l i = Some x -> nth_error l j = Some y ->
    ((priority_of x < priority_of y)%Z -> (i < j)%nat)
    /\ (priority_of x = priority_of y ->
        Item.get_area y < Item.get_area x -> (i < j)%nat).

(** The items that tie with priority [p] and area [a] in the sort. *)
Definition ties_with (p : Z) (a : Q) (x : Item.t) : bool :=
  Z.eqb (priority_of x) p && Qeq_bool (Item.get_area x) a.

Definition is_fridge (p : Placement.t) : bool :=
  String.eqb (Item.item_type (Placement.item p)) "fridge".

(** What a catalog entry becomes when it is parsed. *)
Definition parsed_from (entry : string * list Q) (it : Item.t) : Prop :=
  Item.name it = fst entry
  /\ nth_error (snd entry) 0 = Some (Item.length it)
  /\ nth_error (snd entry) 1 = Some (Item.width it).

(** More of the scenario: the lower wall and the fridge, a candidate
    along that wall and one in the interior, the position chosen for the
    fridge, the solver once the fridge is committed, and a catalog with a
    tie. *)
Module More.
Import Rectilinear.

Definition wall_start : Point := (0, 0).
Definition wall_end : Point := (1000, 0).
Definition short_end : Point := (300, 0).

Definition fridge : Item.t := Item.mk "fridge1" 600 400 "fridge".

Definition wall_candidate : Point * Z :=
  hd ((0, 0), 0%Z) (_generate_wall_positions (wall_start, wall_end) fridge).

Definition interior_candidate : Point * Z :=
  hd ((0, 0), 0%Z) (_generate_interior_positions Scenario.solver fridge).

Definition best : PyFloat * Point * Z :=
  match best_position Scenario.solver fridge with
  | Some b => b
  | None => (NegInf, (0, 0), 0%Z)
  end.

Definition after_fridge : PlacementSolver :=
  match commit_all Scenario.solver [fridge] with
  | Some sk => sk
  | None => Scenario.no_solver
  end.

Definition tie_catalog : list (string * list Q) :=
  [("shelfB", [200; 300]); ("fridge1", [600; 400]); ("shelfA", [300; 200])].

Definition tie_items : list Item.t :=
  match _parse_items tie_catalog with
  | inr its => its
  | inl _ => []
  end.
End More.

(** The axis-parallel rectangle from [(x0, y0)] to [(x1, y1)], its corners
    listed from the lower left one against the clock. *)
Definition box_between (x0 y0 x1 y1 : Q) : Polygon :=
  [(x0, y0); (x1, y0); (x1, y1); (x0, y1)].

(** Two polygons with the same vertices, as numbers. *)
Definition same_points (a b : Polygon) : Prop :=
  Forall2 (fun p q => fst p == fst q /\ snd p == snd q) a b.

(** * Properties *)

(** ** Comparisons *)

Lemma Qltb_lt (a b : Q) : Qltb a b = true <-> a < b.
Proof.
  unfold Qltb. rewrite negb_true_iff.
  split; intro H.
  - apply Qnot_le_lt. intro Hle. apply Qle_bool_iff in Hle. congruence.
  - destruct (Qle_bool b a) eqn:E; [|reflexivity].
    apply Qle_bool_iff in E. exfalso. exact (Qlt_not_le _ _ H E).
Qed.

Lemma Qltb_ge (a b : Q) : Qltb a b = false <-> b <= a.
Proof.
  unfold Qltb. rewrite negb_false_iff. apply Qle_bool_iff.
Qed.

(** ** Sorting *)

Section SortFacts.
Variables (A K : Type) (ltb : K -> K -> bool) (key : A -> K).

Hypothesis ltb_asym : forall a b, ltb a b = true -> ltb b a = false.
Hypothesis geb_trans :
  forall a b c, ltb b a = false -> ltb c b = false -> ltb c a = false.

Lemma insert_sorted_perm (x : A) (l : list A) :
  Permutation (x :: l) (insert_sorted ltb key x l).
Proof.
  induction l as [|y l IH]; simpl.
  - apply Permutation_refl.
  - destruct (ltb (key y) (key x)).
    + eapply perm_trans; [apply perm_swap|]. now apply perm_skip.
    + apply Permutation_refl.
Qed.

Lemma list_sort_perm (l : list A) : Permutation l (list_sort ltb key l).
Proof.
  induction l as [|x l IH]; simpl.
  - constructor.
  - eapply perm_trans; [apply perm_skip, IH|]. apply insert_sorted_perm.
Qed.

Lemma insert_sorted_sorted (x : A) (l : list A) :
  StronglySorted (may_precede ltb key) l ->
  StronglySorted (may_precede ltb key) (insert_sorted ltb key x l).
Proof.
  induction 1 as [|y l Hl IH Hy]; simpl.
  - repeat constructor.
  - destruct (ltb (key y) (key x)) eqn:E.
    + constructor; [exact IH|].
      apply (Permutation_Forall (insert_sorted_perm x l)).
      constructor; [|exact Hy].
      unfold may_precede. now apply ltb_asym.
    + constructor; [now constructor|].
      constructor; [exact E|].
      revert Hy. apply Forall_impl. intros z Hz.
      unfold may_precede in *. now apply geb_trans with (key y).
Qed.

Lemma list_sort_sorted (l : list A) :
  StronglySorted (may_precede ltb key) (list_sort ltb key l).
Proof.
  induction l as [|x l IH]; simpl.
  - constructor.
  - now apply insert_sorted_sorted.
Qed.

Lemma first_max_unique (l : list A) (x x' : A) :
  first_max ltb key l x -> first_max ltb key l x' -> x = x'.
Proof.
  intros (l1 & l2 & -> & Hlt & Hge) (l1' & l2' & E & Hlt' & Hge').
  revert l1' E Hlt'.
  induction l1 as [|a l1 IH]; intros [|a' l1'] E Hlt'; simpl in E.
  - congruence.
  - injection E as Ex E.
    assert (Hin : In x' l2) by (rewrite E; apply in_elt).
    specialize (Hge _ Hin).
    specialize (Hlt' a' (or_introl eq_refl)). congruence.
  - injection E as Ex E.
    assert (Hin : In x l2') by (rewrite <- E; apply in_elt).
    specialize (Hge' _ Hin).
    specialize (Hlt a (or_introl eq_refl)). congruence.
  - injection E as Ex E.
    apply (IH (fun y Hy => Hlt y (or_intror Hy)) l1' E).
    intros y Hy. apply Hlt'. now right.
Qed.
End SortFacts.


Section SortHead.
Variables (A K : Type) (ltb : K -> K -> bool) (key : A -> K).

Hypothesis ltb_trans :
  forall a b c, ltb a b = true -> ltb b c = true -> ltb a c = true.
Hypothesis geb_trans :
  forall a b c, ltb b a = false -> ltb c b = false -> ltb c a = false.

(** With [reverse=True], the head of the sorted list is the first
    element of the unsorted one whose key is largest. *)
Lemma sort_reverse_head (v : A) (vs : list A) :
  first_max ltb key (v :: vs) (hd v (list_sort_reverse ltb key (v :: vs))).
Proof.
  unfold list_sort_reverse, list_sort.
  revert v. induction vs as [|w vs IH]; intro v.
  - exists [], []. simpl. repeat split; intros y [].
  - specialize (IH w). cbn [fold_right] in *.
    set (sorted := fold_right (insert_sorted (fun a b => ltb b a) key) [] vs) in *.
    destruct (insert_sorted (fun a b => ltb b a) key w sorted) as [|h t] eqn:Es.
    { pose proof (insert_sorted_perm _ _ (fun a b => ltb b a) key w sorted) as P.
      rewrite Es in P. apply Permutation_sym, Permutation_nil in P. discriminate. }
    cbn [hd insert_sorted] in *.
    destruct IH as (l1 & l2 & E & Hlt & Hge).
    destruct (ltb (key v) (key h)) eqn:Evh; cbn [hd].
    + exists (v :: l1), l2. rewrite E. repeat split; auto.
      intros y [<-|Hy]; auto.
    + exists [], (w :: vs). repeat split; [intros y []|].
      intros y Hy. rewrite E in Hy.
      apply in_app_or in Hy. destruct Hy as [Hy|[<-|Hy]]; auto.
      * destruct (ltb (key v) (key y)) eqn:Evy; [|reflexivity].
        rewrite (ltb_trans _ _ _ Evy (Hlt _ Hy)) in Evh. discriminate.
      * apply geb_trans with (key h); auto.
Qed.
End SortHead.

(** ** The two orders used for sorting *)

Lemma float_ltb_trans (a b c : PyFloat) :
  float_ltb a b = true -> float_ltb b c = true -> float_ltb a c = true.
Proof.
  destruct a, b, c; simpl; try congruence.
  rewrite !Qltb_lt. apply Qlt_trans.
Qed.

Lemma float_geb_trans (a b c : PyFloat) :
  float_ltb b a = false -> float_ltb c b = false -> float_ltb c a = false.
Proof.
  destruct a, b, c; simpl; try congruence.
  rewrite !Qltb_ge. apply Qle_trans.
Qed.

Lemma key_ltb_true (a b : Z * Q) :
  key_ltb a b = true <->
  (fst a < fst b)%Z \/ (fst a = fst b /\ snd a < snd b).
Proof.
  unfold key_ltb. destruct (Z.eqb_spec (fst a) (fst b)) as [E|E].
  - rewrite Qltb_lt. split; [now right|]. intros [H|[_ H]]; [lia|exact H].
  - rewrite Z.ltb_lt. split; [now left|]. intros [H|[H _]]; [exact H|contradiction].
Qed.

Lemma key_ltb_false (a b : Z * Q) :
  key_ltb a b = false <->
  (fst b < fst a)%Z \/ (fst a = fst b /\ snd b <= snd a).
Proof.
  unfold key_ltb. destruct (Z.eqb_spec (fst a) (fst b)) as [E|E].
  - rewrite Qltb_ge. split; [now right|]. intros [H|[_ H]]; [lia|exact H].
  - rewrite Z.ltb_ge. split; [intro; left; lia|]. intros [H|[H _]]; [lia|contradiction].
Qed.

Lemma key_ltb_asym (a b : Z * Q) : key_ltb a b = true -> key_ltb b a = false.
Proof.
  rewrite key_ltb_true, key_ltb_false.
  intros [H|[H1 H2]]; [now left|right].
  split; [congruence|]. now apply Qlt_le_weak.
Qed.

Lemma key_geb_trans (a b c : Z * Q) :
  key_ltb b a = false -> key_ltb c b = false -> key_ltb c a = false.
Proof.
  rewrite !key_ltb_false.
  intros [H1|[H1 H1']] [H2|[H2 H2']]; try (left; lia).
  right. split; [congruence|]. now apply Qle_trans with (snd b).
Qed.

(** ** The rectangle and the clearance zone *)

Lemma create_rectangle_box (p : Placement.t) :
  rect_of p = centered_box (Placement.center p) (extent_x p) (extent_y p).
Proof.
  unfold rect_of, _create_rectangle, centered_box, extent_x, extent_y.
  destruct (Placement.center p) as [cx cy]. simpl.
  now destruct (Z.eqb (Placement.rotation p) 0).
Qed.

Lemma fridge_zone_none (p : Placement.t) :
  _calculate_fridge_door_zone p = None <->
  Item.item_type (Placement.item p) <> "fridge".
Proof.
  unfold _calculate_fridge_door_zone.
  destruct (String.eqb_spec (Item.item_type (Placement.item p)) "fridge") as [E|E];
    simpl.
  - destruct (Placement.center p), (Z.eqb (Placement.rotation p) 0);
      split; intro H; [discriminate|contradiction|discriminate|contradiction].
  - tauto.
Qed.

Lemma fridge_zone_not_empty (p : Placement.t) (zone : Polygon) :
  _calculate_fridge_door_zone p = Some zone -> is_empty zone = false.
Proof.
  unfold _calculate_fridge_door_zone.
  destruct (negb _); [discriminate|].
  destruct (Placement.center p), (Z.eqb (Placement.rotation p) 0);
    intro H; injection H as <-; reflexivity.
Qed.

Section SolverFacts.
Context {K : Kernel}.

(** *** The validity check *)

Lemma is_valid_placement_true (self : PlacementSolver) (center : Point)
    (item : Item.t) (rotation : Z) :
  let rect := _create_rectangle center (Item.length item) (Item.width item) rotation in
  _is_valid_placement self center item rotation = true <->
  contains (boundary_polygon self) rect = true
  /\ (forall zone, door_restricted_zone self = Some zone ->
                   is_empty zone = false -> intersects rect zone = false)
  /\ (forall placed_poly, In placed_poly (placed_polygons self) ->
                          intersects rect placed_poly = false)
  /\ (forall fridge_zone, In fridge_zone (fridge_zones self) ->
                          intersects rect fridge_zone = false).
Proof.
  intro rect.
  assert (Hex : forall l, existsb (fun q => intersects rect q) l = false <->
                          forall q, In q l -> intersects rect q = false).
  { intro l. induction l as [|q l IH]; simpl.
    - split; [intros _ ? []|reflexivity].
    - rewrite orb_false_iff, IH. split.
      + intros [H1 H2] q' [<-|Hq]; auto.
      + intro H. split; [apply H; now left|]. intros q' Hq. apply H. now right. }
  assert (Hdoor :
    match door_restricted_zone self with
    | Some zone => negb (is_empty zone) && intersects rect zone
    | None => false
    end = false <->
    forall zone, door_restricted_zone self = Some zone ->
                 is_empty zone = false -> intersects rect zone = false).
  { destruct (door_restricted_zone self) as [zone|].
    - split.
      + intros H z Hz Hne. injection Hz as <-. now rewrite Hne in H.
      + intro H. destruct (is_empty zone) eqn:Ee; [reflexivity|].
        simpl. now apply H.
    - split; [discriminate|reflexivity]. }
  rewrite <- Hdoor, <- !Hex.
  unfold _is_valid_placement. fold rect.
  destruct (contains (boundary_polygon self) rect),
           (match door_restricted_zone self with
            | Some zone => negb (is_empty zone) && intersects rect zone
            | None => false
            end),
           (existsb _ (placed_polygons self)),
           (existsb _ (fridge_zones self));
    simpl; intuition discriminate.
Qed.

(** *** Candidates and the chosen position *)

Lemma wall_positions_rotation (wall : LineString) (item : Item.t) c r :
  In (c, r) (_generate_wall_positions wall item) -> r = 0%Z \/ r = 90%Z.
Proof.
  unfold _generate_wall_positions. destruct wall as [p1 p2].
  intro H. apply in_flat_map in H as (dist & _ & H).
  apply in_flat_map in H as (rot & Hrot & H).
  assert (r = rot).
  { destruct (Z.eqb rot 0); destruct (_ || _); simpl in H;
      try contradiction; destruct H as [H|[]]; congruence. }
  subst rot. simpl in Hrot. intuition.
Qed.

Lemma interior_positions_rotation (self : PlacementSolver) (item : Item.t) c r :
  In (c, r) (_generate_interior_positions self item) -> r = 0%Z \/ r = 90%Z.
Proof.
  unfold _generate_interior_positions.
  destruct (bounds (boundary_polygon self)) as [[[minx miny] maxx] maxy].
  intro H. apply in_flat_map in H as (x & _ & H).
  apply in_flat_map in H as (y & _ & H).
  destruct (contains_point _ _); simpl in H; [|contradiction].
  destruct H as [H|[H|[]]]; injection H as _ <-; auto.
Qed.

Lemma candidates_rotation (self : PlacementSolver) (item : Item.t) c r :
  In (c, r) (candidates self item) -> r = 0%Z \/ r = 90%Z.
Proof.
  unfold candidates. intro H. apply in_app_or in H as [H|H].
  - apply in_flat_map in H as (wall & _ & H).
    now apply wall_positions_rotation in H.
  - now apply interior_positions_rotation in H.
Qed.

Lemma valid_positions_In (self : PlacementSolver) (item : Item.t) sc c r :
  In (sc, c, r) (valid_positions self item) <->
  In (c, r) (candidates self item)
  /\ _is_valid_placement self c item r = true
  /\ sc = _calculate_position_score self c item r.
Proof.
  unfold valid_positions. rewrite in_flat_map. split.
  - intros ([c' r'] & Hin & H).
    destruct (_is_valid_placement self c' item r') eqn:E; simpl in H;
      [|contradiction].
    destruct H as [H|[]]. injection H as <- <- <-. auto.
  - intros (Hin & Hv & ->). exists (c, r). split; [exact Hin|].
    rewrite Hv. now left.
Qed.

Lemma best_position_first_max (self : PlacementSolver) (item : Item.t) best :
  best_position self item = Some best <->
  first_max float_ltb (fun x => fst (fst x)) (valid_positions self item) best.
Proof.
  unfold best_position. split.
  - destruct (valid_positions self item) as [|v vs]; [discriminate|].
    intro H. injection H as <-.
    apply sort_reverse_head; [apply float_ltb_trans|apply float_geb_trans].
  - intro H. destruct (valid_positions self item) as [|v vs] eqn:E.
    + destruct H as (l1 & l2 & H & _). now destruct l1.
    + f_equal. eapply first_max_unique; [|exact H].
      apply sort_reverse_head; [apply float_ltb_trans|apply float_geb_trans].
Qed.

Lemma best_position_None (self : PlacementSolver) (item : Item.t) :
  best_position self item = None <-> valid_positions self item = [].
Proof.
  unfold best_position. now destruct (valid_positions self item).
Qed.

Lemma best_position_valid (self : PlacementSolver) (item : Item.t) sc c r :
  best_position self item = Some (sc, c, r) ->
  In (c, r) (candidates self item)
  /\ _is_valid_placement self c item r = true
  /\ sc = _calculate_position_score self c item r.
Proof.
  intro H. apply best_position_first_max in H as (l1 & l2 & E & _).
  apply valid_positions_In. rewrite E. apply in_elt.
Qed.
End SolverFacts.

(** ** The commit loop *)

Section SolveLoop.
Context {K : Kernel}.

Lemma state_at_self (self : PlacementSolver) :
  placed_polygons self = map rect_of (placements self) ->
  fridge_zones self = zones_of (placements self) ->
  state_at self (placements self) = self.
Proof.
  destruct self. unfold state_at. simpl. now intros <- <-.
Qed.

Lemma commit_fridge_zones (self : PlacementSolver) (item : Item.t) c r :
  fridge_zones (commit self item c r)
  = fridge_zones self ++ zone_list (Placement.mk item c r).
Proof.
  unfold commit, zone_list. cbn [fridge_zones].
  destruct (String.eqb_spec (Item.item_type item) "fridge") as [E|E].
  - destruct (_calculate_fridge_door_zone _) as [zone|] eqn:Ez.
    + now rewrite (fridge_zone_not_empty _ _ Ez).
    + now rewrite app_nil_r.
  - assert (H : _calculate_fridge_door_zone (Placement.mk item c r) = None)
      by now apply fridge_zone_none.
    rewrite H. now rewrite app_nil_r.
Qed.

Lemma zones_of_app (ps qs : list Placement.t) :
  zones_of (ps ++ qs) = zones_of ps ++ zones_of qs.
Proof. unfold zones_of. apply flat_map_app. Qed.

Lemma commit_preserves (self : PlacementSolver) (item : Item.t) sc c r :
  committed_by_solve self ->
  best_position self item = Some (sc, c, r) ->
  committed_by_solve (commit self item c r).
Proof.
  intros (Hp & Hz & Hh) Hb. apply best_position_valid in Hb as (Hc & Hv & _).
  repeat split.
  - cbn [commit placed_polygons placements]. rewrite map_app, Hp. reflexivity.
  - rewrite commit_fridge_zones. cbn [commit placements].
    rewrite zones_of_app, Hz. unfold zones_of at 2. simpl.
    now rewrite app_nil_r.
  - cbn [commit placements] in H.
    destruct post as [|q post] using rev_ind.
    + apply app_inj_tail in H as [<- <-].
      change (state_at (commit self item c r) (placements self))
        with (state_at self (placements self)).
      now rewrite state_at_self.
    + rewrite app_comm_cons, app_assoc in H.
      apply app_inj_tail in H as [H _].
      now apply (Hh _ _ _ H).
  - cbn [commit placements] in H.
    destruct post as [|q post] using rev_ind.
    + apply app_inj_tail in H as [<- <-].
      change (state_at (commit self item c r) (placements self))
        with (state_at self (placements self)).
      now rewrite state_at_self.
    + rewrite app_comm_cons, app_assoc in H.
      apply app_inj_tail in H as [H _].
      now apply (Hh _ _ _ H).
Qed.

(** [commit_all] keeps the room, appends one placement per item in
    order, and keeps [committed_by_solve]. *)
Lemma commit_all_spec (its : list Item.t) (self sk : PlacementSolver) :
  commit_all self its = Some sk ->
  (forall ps, state_at sk ps = state_at self ps)
  /\ (exists ps, placements sk = placements self ++ ps
                 /\ map Placement.item ps = its)
  /\ (committed_by_solve self -> committed_by_solve sk).
Proof.
  revert self. induction its as [|item rest IH]; intros self H; simpl in H.
  - injection H as <-. split; [reflexivity|split; [|auto]].
    exists []. now rewrite app_nil_r.
  - destruct (best_position self item) as [[[sc c] r]|] eqn:Eb; [|discriminate].
    apply IH in H as (Hs & (ps & Hps & Hit) & Hinv).
    split; [|split].
    + intro ps'. now rewrite Hs.
    + exists (Placement.mk item c r :: ps). split.
      * rewrite Hps. cbn [commit placements]. now rewrite <- app_assoc.
      * simpl. now rewrite Hit.
    + intro Hc. apply Hinv. now apply commit_preserves with sc.
Qed.

Lemma solve_loop_app (pre rest : list Item.t) (self sk : PlacementSolver) :
  commit_all self pre = Some sk ->
  solve_loop self (pre ++ rest) = solve_loop sk rest.
Proof.
  revert self. induction pre as [|item pre IH]; intros self H; simpl in H.
  - now injection H as <-.
  - simpl. destruct (best_position self item) as [[[sc c] r]|]; [|discriminate].
    now apply IH.
Qed.

(** The two ways the loop ends. *)
Lemma solve_loop_outcome (todo : list Item.t) (self : PlacementSolver) :
  (exists sk,
      commit_all self todo = Some sk
      /\ solve_loop self todo
         = (sk, {| feasible := true;
                   placements_out := map Placement.to_dict (placements sk);
                   message := None |}))
  \/ (exists pre item post sk,
         todo = pre ++ item :: post
         /\ commit_all self pre = Some sk
         /\ valid_positions sk item = []
         /\ solve_loop self todo
            = (sk, {| feasible := false;
                      placements_out := map Placement.to_dict (placements sk);
                      message := Some (infeasible_message item) |})).
Proof.
  revert self. induction todo as [|item rest IH]; intro self.
  - left. exists self. split; reflexivity.
  - simpl. destruct (best_position self item) as [[[sc c] r]|] eqn:Eb.
    + destruct (IH (commit self item c r))
        as [(sk & H1 & H2)|(pre & it & post & sk & E & H1 & H2 & H3)].
      * left. exists sk. now split.
      * right. exists (item :: pre), it, post, sk. subst rest.
        repeat split; auto. simpl. now rewrite Eb.
    + right. exists [], item, rest, self. repeat split.
      now apply best_position_None.
Qed.

(** Whatever the outcome, the solver is left as the commits of a prefix
    of the items made it. *)
Lemma solve_loop_final (todo : list Item.t) (self : PlacementSolver) :
  exists done, exists rest,
    todo = done ++ rest
    /\ commit_all self done = Some (fst (solve_loop self todo))
    /\ placements_out (snd (solve_loop self todo))
       = map Placement.to_dict (placements (fst (solve_loop self todo))).
Proof.
  destruct (solve_loop_outcome todo self)
    as [(sk & H1 & H2)|(pre & it & post & sk & E & H1 & H2 & H3)].
  - exists todo, []. rewrite H2. simpl. now rewrite app_nil_r.
  - exists pre, (it :: post). rewrite H3. simpl. auto.
Qed.

Lemma init_fresh boundary door inward catalog (self : PlacementSolver) :
  __init__ boundary door inward catalog = inr self ->
  placements self = []
  /\ boundary_polygon self = boundary
  /\ walls self = _extract_walls boundary
  /\ _parse_items catalog = inr (items self)
  /\ _calculate_door_zone door inward = inr (door_restricted_zone self)
  /\ committed_by_solve self.
Proof.
  unfold __init__, bind.
  destruct (_parse_items catalog) as [e|its]; [discriminate|].
  destruct (_calculate_door_zone door inward) as [e|zone]; [discriminate|].
  intro H. injection H as <-. simpl. repeat split; auto.
  - now destruct pre.
  - now destruct pre.
Qed.

(** The state [solve] leaves behind, for a freshly built solver. *)
Lemma solve_committed boundary door inward catalog (self : PlacementSolver) :
  __init__ boundary door inward catalog = inr self ->
  let final := fst (solve self) in
  committed_by_solve final
  /\ boundary_polygon final = boundary
  /\ door_restricted_zone final = door_restricted_zone self
  /\ items final = items self
  /\ exists done rest,
       items self = done ++ rest
       /\ map Placement.item (placements final) = done
       /\ commit_all self done = Some final.
Proof.
  intros Hi final. apply init_fresh in Hi as (Hp & Hb & _ & _ & _ & Hc).
  destruct (solve_loop_final (items self) self) as (done & rest & E & H & _).
  fold (solve self) in H. fold final in H.
  pose proof (commit_all_spec _ _ _ H) as (Hs & (ps & Hps & Hit) & Hinv).
  split; [exact (Hinv Hc)|].
  split; [rewrite <- Hb; exact (f_equal boundary_polygon (Hs []))|].
  split; [exact (f_equal door_restricted_zone (Hs []))|].
  split; [exact (f_equal items (Hs []))|].
  exists done, rest. split; [exact E|]. split; [|exact H].
  rewrite Hps, Hp. exact Hit.
Qed.
End SolveLoop.

(** ** Invariants of the committed placements *)

Section Invariants.
Context {K : Kernel}.

Lemma nth_error_before {A : Type} (l : list A) (i j : nat) (x y : A) :
  (i < j)%nat -> nth_error l i = Some x -> nth_error l j = Some y ->
  exists pre post, l = pre ++ y :: post /\ In x pre.
Proof.
  intros Hij Hi Hj.
  destruct (nth_error_split l j Hj) as (pre & post & -> & Hlen).
  exists pre, post. split; [reflexivity|].
  rewrite nth_error_app1 in Hi by lia.
  now apply nth_error_In in Hi.
Qed.

Lemma commit_all_app (a b : list Item.t) (self : PlacementSolver) :
  commit_all self (a ++ b)
  = match commit_all self a with
    | Some sm => commit_all sm b
    | None => None
    end.
Proof.
  revert self. induction a as [|item a IH]; intro self; simpl.
  - reflexivity.
  - destruct (best_position self item) as [[[sc c] r]|]; [apply IH|reflexivity].
Qed.

(** The solver in which a committed placement was validated is the one
    the run had reached once its predecessors were committed. *)
Lemma commit_all_at its (self sk : PlacementSolver) pre p post :
  committed_by_solve self ->
  placements self = [] ->
  commit_all self its = Some sk ->
  placements sk = pre ++ p :: post ->
  commit_all self (firstn (List.length pre) its) = Some (state_at sk pre).
Proof.
  intros Hc Hp H E.
  rewrite <- (firstn_skipn (List.length pre) its) in H.
  rewrite commit_all_app in H.
  destruct (commit_all self (firstn (List.length pre) its)) as [sm|] eqn:Em;
    [|discriminate].
  f_equal.
  destruct (commit_all_spec _ _ _ Em) as (Hs1 & (ps1 & Hps1 & Hit1) & Hinv1).
  destruct (commit_all_spec _ _ _ H) as (Hs2 & (ps2 & Hps2 & Hit2) & _).
  rewrite Hp in Hps1. simpl in Hps1.
  assert (Hlen : List.length ps1 = List.length pre).
  { rewrite <- (length_map Placement.item ps1), Hit1, length_firstn.
    apply Nat.min_l.
    assert (Hl : List.length (placements sk) = List.length its).
    { rewrite Hps2, Hps1, length_app.
      rewrite <- (length_map Placement.item ps1), <- (length_map Placement.item ps2).
      rewrite Hit1, Hit2, <- length_app. now rewrite firstn_skipn. }
    rewrite E, length_app in Hl. simpl in Hl. lia. }
  assert (Heq : ps1 = pre).
  { rewrite Hps2, Hps1 in E.
    apply (f_equal (firstn (List.length ps1))) in E.
    rewrite firstn_app, Nat.sub_diag, firstn_all in E. simpl in E.
    rewrite app_nil_r in E. rewrite E, Hlen.
    rewrite firstn_app, Nat.sub_diag, firstn_all. simpl. now rewrite app_nil_r. }
  rewrite Heq in Hps1. destruct (Hinv1 Hc) as (Ha & Hb & _).
  rewrite <- (state_at_self sm Ha Hb), Hps1. symmetry. apply Hs2.
Qed.

Variables (boundary : list Point) (door : option (list Point))
          (inward : bool) (catalog : list (string * list Q)).
Variable self : PlacementSolver.
Hypothesis built : __init__ boundary door inward catalog = inr self.

(** C1. Every placement committed by [solve] has rotation 0 or 90, and
    its rectangle (the length along x and the width along y at rotation
    0, swapped at rotation 90, around the chosen center) is contained in
    the room polygon. *)
Theorem solve_containment (p : Placement.t) :
  In p (placements (fst (solve self))) ->
  (Placement.rotation p = 0%Z \/ Placement.rotation p = 90%Z)
  /\ contains boundary
       (centered_box (Placement.center p) (extent_x p) (extent_y p)) = true.
Proof.
  intro Hin.
  destruct (solve_committed _ _ _ _ _ built) as ((_ & _ & Hh) & Hb & _).
  apply in_split in Hin as (pre & post & E).
  destruct (Hh _ _ _ E) as (Hv & Hc).
  split.
  - now apply candidates_rotation in Hc.
  - apply is_valid_placement_true in Hv as (Hv & _).
    rewrite <- create_rectangle_box, <- Hb. exact Hv.
Qed.

(** C2. Of two placements committed by [solve], the rectangle of the
    later one does not intersect the rectangle of the earlier one, which
    is how the code asks the kernel; where the kernel's [intersects] is
    symmetric, neither intersects the other. *)
Theorem solve_non_overlap (i j : nat) (pi pj : Placement.t) :
  (i < j)%nat ->
  nth_error (placements (fst (solve self))) i = Some pi ->
  nth_error (placements (fst (solve self))) j = Some pj ->
  intersects (rect_of pj) (rect_of pi) = false
  /\ ((forall a b, intersects a b = intersects b a) ->
      intersects (rect_of pi) (rect_of pj) = false).
Proof.
  intros Hij Hi Hj.
  destruct (solve_committed _ _ _ _ _ built) as ((_ & _ & Hh) & _).
  destruct (nth_error_before _ _ _ _ _ Hij Hi Hj) as (pre & post & E & Hin).
  destruct (Hh _ _ _ E) as (Hv & _).
  apply is_valid_placement_true in Hv as (_ & _ & Hv & _).
  assert (H : intersects (rect_of pj) (rect_of pi) = false).
  { apply Hv. cbn [state_at placed_polygons]. now apply in_map. }
  split; [exact H|]. intro Hsym. now rewrite Hsym.
Qed.

(** C3. No committed rectangle intersects the door zone, when there is
    one, nor the clearance zone of a fridge committed before it.  The
    check that admitted a placement ran in the solver as its
    predecessors had left it, whose clearance zones are those of the
    predecessors only: the zone of a fridge is appended after the fridge
    is committed and does not take part in the fridge's own check.  From
    then on a candidate that intersects the zone is rejected. *)
Theorem solve_zone_clearance :
  let final := fst (solve self) in
  (forall p zone,
      In p (placements final) ->
      door_restricted_zone final = Some zone ->
      is_empty zone = false ->
      intersects (rect_of p) zone = false)
  /\ (forall i j pi pj zone,
         (i < j)%nat ->
         nth_error (placements final) i = Some pi ->
         nth_error (placements final) j = Some pj ->
         _calculate_fridge_door_zone pi = Some zone ->
         intersects (rect_of pj) zone = false)
  /\ (forall pre p post,
         placements final = pre ++ p :: post ->
         exists before,
           commit_all self (firstn (List.length pre) (items self)) = Some before
           /\ placements before = pre
           /\ fridge_zones before = zones_of pre
           /\ _is_valid_placement before (Placement.center p)
                (Placement.item p) (Placement.rotation p) = true)
  /\ (forall sm item c r zone its sk c' item' r',
         _calculate_fridge_door_zone (Placement.mk item c r) = Some zone ->
         commit_all (commit sm item c r) its = Some sk ->
         intersects (_create_rectangle c' (Item.length item') (Item.width item') r')
                    zone = true ->
         _is_valid_placement sk c' item' r' = false).
Proof.
  intro final.
  destruct (solve_committed _ _ _ _ _ built)
    as ((Hpp & Hfz & Hh) & _ & Hd & _ & (done & rest & Eit & Hmap & Hrun)).
  fold final in Hpp, Hfz, Hh, Hd, Hmap, Hrun.
  split; [|split; [|split]].
  - intros p zone Hin Hz Hne.
    apply in_split in Hin as (pre & post & E).
    destruct (Hh _ _ _ E) as (Hv & _).
    apply is_valid_placement_true in Hv as (_ & Hv & _).
    now apply Hv.
  - intros i j pi pj zone Hij Hi Hj Hz.
    destruct (nth_error_before _ _ _ _ _ Hij Hi Hj) as (pre & post & E & Hin).
    destruct (Hh _ _ _ E) as (Hv & _).
    apply is_valid_placement_true in Hv as (_ & _ & _ & Hv).
    apply Hv. cbn [state_at fridge_zones]. unfold zones_of.
    apply in_flat_map. exists pi. split; [exact Hin|].
    unfold zone_list. rewrite Hz. now left.
  - intros pre p post E. exists (state_at final pre).
    destruct (init_fresh _ _ _ _ _ built) as (Hp0 & _ & _ & _ & _ & Hc0).
    split; [|split; [reflexivity|split; [reflexivity|apply (Hh _ _ _ E)]]].
    pose proof (commit_all_at _ _ _ _ _ _ Hc0 Hp0 Hrun E) as H.
    rewrite Eit, firstn_app.
    assert (Hle : (List.length pre <= List.length done)%nat).
    { rewrite <- Hmap, length_map, E, length_app. lia. }
    replace (List.length pre - List.length done)%nat with O by lia.
    simpl. now rewrite app_nil_r.
  - intros sm item c r zone its sk c' item' r' Hz Hc Hi.
    destruct (_is_valid_placement sk c' item' r') eqn:Ev; [|reflexivity].
    apply is_valid_placement_true in Ev as (_ & _ & _ & Ev).
    rewrite Ev in Hi; [discriminate|].
    assert (Hin : In zone (fridge_zones (commit sm item c r))).
    { rewrite commit_fridge_zones. apply in_or_app. right.
      unfold zone_list. rewrite Hz. now left. }
    clear - Hin Hc. revert Hin Hc. generalize (commit sm item c r).
    induction its as [|it its IH]; intros s0 Hin Hc; simpl in Hc.
    + now injection Hc as <-.
    + destruct (best_position s0 it) as [[[sc0 c0] r0]|]; [|discriminate].
      apply IH with (2 := Hc).
      rewrite commit_fridge_zones. apply in_or_app. now left.
Qed.
End Invariants.

(** ** Ordering of the items *)

Lemma startswith_cons (c : ascii) (n : string) (d : ascii) (p : string) :
  startswith (String c n) (String d p) = true -> c = d.
Proof.
  unfold startswith. simpl. destruct (ascii_dec d c); [congruence|discriminate].
Qed.

Lemma parse_item_fields (name : string) (dims : list Q) (it : Item.t) :
  parse_item name dims = inr it ->
  Item.name it = name
  /\ nth_error dims 0 = Some (Item.length it)
  /\ nth_error dims 1 = Some (Item.width it)
  /\ priority_of it = categoryPriority name.
Proof.
  unfold parse_item, bind, py_index.
  destruct (nth_error dims 0) as [d0|]; [|discriminate].
  destruct (nth_error dims 1) as [d1|]; [|discriminate].
  intro H. injection H as <-. simpl. repeat split.
  unfold priority_of, categoryPriority. simpl.
  destruct (startswith name "fridge") eqn:E1; [reflexivity|].
  destruct (startswith name "iceMaker") eqn:E2; [reflexivity|].
  destruct (startswith name "overShelf") eqn:E3.
  - destruct (startswith name "shelf") eqn:E4; [|reflexivity].
    destruct name as [|c n]; [discriminate|].
    apply startswith_cons in E3, E4. congruence.
  - destruct (startswith name "shelf"); reflexivity.
Qed.

Lemma parse_all_fields (catalog : list (string * list Q)) (its : list Item.t) :
  parse_all catalog = inr its ->
  map Item.name its = map fst catalog
  /\ Forall (fun it => priority_of it = categoryPriority (Item.name it)) its.
Proof.
  revert its. induction catalog as [|[name dims] rest IH]; intros its H; simpl in H.
  - injection H as <-. split; constructor.
  - unfold bind in H.
    destruct (parse_item name dims) as [|it] eqn:E1; [discriminate|].
    destruct (parse_all rest) as [|its'] eqn:E2; [discriminate|].
    injection H as <-. destruct (IH _ eq_refl) as (Hn & Hp).
    apply parse_item_fields in E1 as (En & _ & _ & Ep).
    split; simpl.
    + now rewrite En, Hn.
    + constructor; [now rewrite En|exact Hp].
Qed.

Lemma may_precede_goes_no_later (x y : Item.t) :
  may_precede key_ltb sort_key x y <-> goes_no_later x y.
Proof.
  unfold may_precede, goes_no_later. rewrite key_ltb_false.
  unfold sort_key, priority_of. simpl. split.
  - intros [H|[H1 H2]]; [now left|right]. split; [congruence|].
    apply Qopp_le_compat in H2. now rewrite !Qopp_involutive in H2.
  - intros [H|[H1 H2]]; [now left|right]. split; [congruence|].
    now apply Qopp_le_compat.
Qed.

Lemma sorted_before {A : Type} (R : A -> A -> Prop) (pre post : list A) (x : A) :
  StronglySorted R (pre ++ x :: post) -> forall y, In y pre -> R y x.
Proof.
  induction pre as [|a pre IH]; intros H y Hy; [destruct Hy|].
  simpl in H. apply StronglySorted_inv in H as (H1 & H2).
  destruct Hy as [<-|Hy]; [|now apply IH].
  rewrite Forall_forall in H2. apply H2, in_elt.
Qed.

Lemma sorted_weaken {A : Type} (R R' : A -> A -> Prop) (l : list A) :
  (forall x y, R x y -> R' x y) -> StronglySorted R l -> StronglySorted R' l.
Proof.
  intros HR H. induction H as [|x l Hl IH Hx]; constructor; auto.
  revert Hx. apply Forall_impl. intro y. apply HR.
Qed.

Lemma sorted_priority_ordered (l : list Item.t) :
  StronglySorted goes_no_later l -> priority_ordered l.
Proof.
  intros Hs i j x y Hi Hj.
  assert (Hge : (j < i)%nat -> goes_no_later y x).
  { intro Hlt.
    destruct (nth_error_split l i Hi) as (pre & post & E & Hlen). subst l.
    apply (sorted_before _ _ _ _ Hs).
    rewrite nth_error_app1 in Hj by lia. now apply nth_error_In in Hj. }
  assert (Heq : i = j -> x = y) by (intros ->; congruence).
  split.
  - intro Hlt. destruct (Nat.lt_trichotomy i j) as [H|[H|H]]; [exact H| |].
    + apply Heq in H. subst y. lia.
    + destruct (Hge H) as [H'|[H' _]]; lia.
  - intros Hp Ha. destruct (Nat.lt_trichotomy i j) as [H|[H|H]]; [exact H| |].
    + apply Heq in H. subst y. exfalso. exact (Qlt_irrefl _ Ha).
    + destruct (Hge H) as [H'|[_ H']]; [lia|].
      exfalso. exact (Qlt_not_le _ _ Ha H').
Qed.

Lemma priority_ordered_firstn (l : list Item.t) (k : nat) :
  priority_ordered l -> priority_ordered (firstn k l).
Proof.
  intros H i j x y Hi Hj. apply (H i j x y).
  - rewrite <- (firstn_skipn k l). rewrite nth_error_app1; [exact Hi|].
    apply nth_error_Some. congruence.
  - rewrite <- (firstn_skipn k l). rewrite nth_error_app1; [exact Hj|].
    apply nth_error_Some. congruence.
Qed.

(** ** Outcomes of [solve] *)

Section Outcomes.
Context {K : Kernel}.

Variables (boundary : list Point) (door : option (list Point))
          (inward : bool) (catalog : list (string * list Q)).
Variable self : PlacementSolver.
Hypothesis built : __init__ boundary door inward catalog = inr self.

(** C4. When the items before [item] in the sorted order are all placed
    and no candidate of [item] is valid, [solve] stops there: it returns
    [feasible = false], the placements committed so far, in commit
    order, one per item before [item], and the message that names
    [item].  When all items are placed it returns [feasible = true] and
    no message.  One of the two happens, and the message is present
    exactly when the outcome is infeasible. *)
Theorem solve_infeasible_report :
  (forall pre item post sk,
      items self = pre ++ item :: post ->
      commit_all self pre = Some sk ->
      valid_positions sk item = [] ->
      solve self
      = (sk, {| feasible := false;
                placements_out := map Placement.to_dict (placements sk);
                message := Some ("无法摆放物品: " ++ Item.name item)%string |})
      /\ map Placement.item (placements sk) = pre)
  /\ (forall sk,
         commit_all self (items self) = Some sk ->
         solve self
         = (sk, {| feasible := true;
                   placements_out := map Placement.to_dict (placements sk);
                   message := None |})
         /\ map Placement.item (placements sk) = items self)
  /\ ((exists sk, commit_all self (items self) = Some sk)
      \/ (exists pre item post sk,
             items self = pre ++ item :: post
             /\ commit_all self pre = Some sk
             /\ valid_positions sk item = []))
  /\ (message (snd (solve self)) = None <-> feasible (snd (solve self)) = true).
Proof.
  destruct (init_fresh _ _ _ _ _ built) as (Hp0 & _).
  assert (Hitems : forall its sk, commit_all self its = Some sk ->
                                  map Placement.item (placements sk) = its).
  { intros its sk H. apply commit_all_spec in H as (_ & (ps & Hps & Hit) & _).
    now rewrite Hps, Hp0. }
  split; [|split; [|split]].
  - intros pre item post sk E Hc Hv. split; [|now apply Hitems].
    unfold solve. rewrite E, (solve_loop_app _ _ _ _ Hc). simpl.
    apply best_position_None in Hv. now rewrite Hv.
  - intros sk Hc. split; [|now apply Hitems].
    unfold solve. rewrite <- (app_nil_r (items self)).
    now rewrite (solve_loop_app _ _ _ _ Hc).
  - destruct (solve_loop_outcome (items self) self)
      as [(sk & H1 & _)|(pre & it & post & sk & E & H1 & H2 & _)].
    + left. now exists sk.
    + right. now exists pre, it, post, sk.
  - unfold solve.
    destruct (solve_loop_outcome (items self) self)
      as [(sk & _ & ->)|(pre & it & post & sk & _ & _ & _ & ->)]; simpl.
    + tauto.
    + split; discriminate.
Qed.

(** C5. The items are sorted at construction, by ascending
    [(priority, -area)] with the priorities fridge 0, iceMaker 1,
    shelf 2, overShelf 3, unknown 4 of the category read off the prefix
    of the name; [solve] leaves that order alone and commits along it.
    So whatever the order of the catalog, an item of a lower category
    index is attempted, and committed, before one of a higher index, and
    within a category a larger item before a smaller one. *)
Theorem items_priority_order :
  (dict_get priority "fridge" 4 = 0 /\ dict_get priority "iceMaker" 4 = 1
   /\ dict_get priority "shelf" 4 = 2 /\ dict_get priority "overShelf" 4 = 3
   /\ dict_get priority "unknown" 4 = 4)%Z
  /\ (exists parsed,
         parse_all catalog = inr parsed
         /\ map Item.name parsed = map fst catalog
         /\ items self = list_sort key_ltb sort_key parsed
         /\ Permutation parsed (items self))
  /\ Forall (fun it => priority_of it = categoryPriority (Item.name it)) (items self)
  /\ StronglySorted goes_no_later (items self)
  /\ priority_ordered (items self)
  /\ items (fst (solve self)) = items self
  /\ (exists k, map Placement.item (placements (fst (solve self)))
                = firstn k (items self))
  /\ priority_ordered (map Placement.item (placements (fst (solve self)))).
Proof.
  destruct (init_fresh _ _ _ _ _ built) as (_ & _ & _ & Hparse & _).
  unfold _parse_items, bind in Hparse.
  destruct (parse_all catalog) as [|parsed] eqn:Ep; [discriminate|].
  injection Hparse as Hsort.
  destruct (parse_all_fields _ _ Ep) as (Hnames & Hprio).
  assert (Hperm : Permutation parsed (items self)).
  { rewrite <- Hsort. apply list_sort_perm. }
  assert (Hsorted : StronglySorted goes_no_later (items self)).
  { rewrite <- Hsort.
    apply sorted_weaken with (R := may_precede key_ltb sort_key).
    - intros x y. apply may_precede_goes_no_later.
    - apply list_sort_sorted; [apply key_ltb_asym|apply key_geb_trans]. }
  destruct (solve_committed _ _ _ _ _ built)
    as (_ & _ & _ & Hit & (done & rest & E & Hmap & _)).
  assert (Hfirst : map Placement.item (placements (fst (solve self)))
                   = firstn (List.length done) (items self)).
  { rewrite Hmap, E, firstn_app, Nat.sub_diag, firstn_all. simpl.
    now rewrite app_nil_r. }
  split; [repeat split|].
  split; [exists parsed; auto|].
  split; [exact (Permutation_Forall Hperm Hprio)|].
  split; [exact Hsorted|].
  split; [now apply sorted_priority_ordered|].
  split; [exact Hit|].
  split; [now exists (List.length done)|].
  rewrite Hfirst. now apply priority_ordered_firstn, sorted_priority_ordered.
Qed.
End Outcomes.

Section EmptyCatalog.
Context {K : Kernel}.

(** C10. With an empty catalog, whatever the boundary, the door and the
    swing flag the solver was built from, [solve] returns
    [feasible = true], no placement and no message, and leaves the
    solver as it was. *)
Theorem solve_empty_catalog boundary door inward (self : PlacementSolver) :
  __init__ boundary door inward [] = inr self ->
  solve self
  = (self, {| feasible := true; placements_out := []; message := None |}).
Proof.
  intro H. apply init_fresh in H as (Hp & _ & _ & Hi & _).
  injection Hi as Hi. unfold solve. rewrite <- Hi. simpl. now rewrite Hp.
Qed.
End EmptyCatalog.

(** ** The score *)

Section Score.
Context {K : Kernel}.

Lemma float_min_minimum (m : PyFloat) (d : Q) (ds : list Q) :
  is_minimum m ds -> is_minimum (float_min m d) (ds ++ [d]).
Proof.
  unfold float_min. destruct m as [|d0|]; simpl; [contradiction| |].
  - intros (Hin & Hall). destruct (Qltb d d0) eqn:E; simpl.
    + apply Qltb_lt in E. split; [apply in_or_app; right; now left|].
      apply Forall_app. split; [|constructor; [apply Qle_refl|constructor]].
      revert Hall. apply Forall_impl. intros q Hq.
      apply Qle_trans with d0; [now apply Qlt_le_weak|exact Hq].
    + apply Qltb_ge in E. split; [apply in_or_app; now left|].
      apply Forall_app. split; [exact Hall|]. constructor; [exact E|constructor].
  - intros ->. simpl. split; [now left|].
    constructor; [apply Qle_refl|constructor].
Qed.

Lemma wall_loop_spec (rect : Polygon) (ws : list LineString) (n : nat)
    (m : PyFloat) (ds : list Q) :
  is_minimum m ds ->
  fst (wall_loop rect ws (n, m))
  = (n + List.length (filter (fun wall => Qltb (distance rect wall) 10) ws))%nat
  /\ is_minimum (snd (wall_loop rect ws (n, m))) (ds ++ map (distance rect) ws).
Proof.
  revert n m ds. induction ws as [|w ws IH]; intros n m ds Hm; simpl.
  - rewrite app_nil_r, Nat.add_0_r. now split.
  - unfold wall_loop in *. simpl.
    specialize (IH (if Qltb (distance rect w) 10 then S n else n)
                   (float_min m (distance rect w))
                   (ds ++ [distance rect w])
                   (float_min_minimum _ _ _ Hm)).
    rewrite <- app_assoc in IH. simpl in IH.
    destruct IH as (IH1 & IH2). split; [|exact IH2].
    rewrite IH1. destruct (Qltb (distance rect w) 10); simpl; lia.
Qed.

(** The score as the code computes it, with the count and the minimum
    of the walls in closed form. *)
Lemma score_closed_form (self : PlacementSolver) (center : Point)
    (item : Item.t) (rotation : Z) :
  let rect := _create_rectangle center (Item.length item) (Item.width item) rotation in
  exists m,
    is_minimum m (map (distance rect) (walls self))
    /\ _calculate_position_score self center item rotation
       = float_sub (0 + inject_Z (Z.of_nat (touching_wall_count self rect)) * 10000) m.
Proof.
  intro rect. unfold _calculate_position_score. fold rect.
  destruct (wall_loop_spec rect (walls self) O PosInf [] eq_refl) as (H1 & H2).
  destruct (wall_loop rect (walls self) (O, PosInf)) as [tw mw].
  simpl in H1, H2. exists mw. split; [exact H2|]. now rewrite H1.
Qed.

Lemma touching_minimum (self : PlacementSolver) (rect : Polygon) (m : PyFloat) :
  (0 < touching_wall_count self rect)%nat ->
  is_minimum m (map (distance rect) (walls self)) ->
  exists d, m = Fin d /\ d < 10.
Proof.
  unfold touching_wall_count. intros Hn Hm.
  destruct (filter _ (walls self)) as [|w ws] eqn:Ef; [simpl in Hn; lia|].
  assert (Hw : In w (filter (fun wall => Qltb (distance rect wall) 10) (walls self)))
    by (rewrite Ef; now left).
  apply filter_In in Hw as (Hw & Hlt). apply Qltb_lt in Hlt.
  destruct m as [|d|]; simpl in Hm.
  - contradiction.
  - exists d. split; [reflexivity|]. destruct Hm as (_ & Hall).
    rewrite Forall_forall in Hall.
    apply Qle_lt_trans with (distance rect w); [|exact Hlt].
    apply Hall. now apply in_map.
  - apply (in_map (distance rect)) in Hw. rewrite Hm in Hw. destruct Hw.
Qed.

(** C6. The score of a candidate is [touchingWallCount * 10000 -
    minWallDistance], where the count is that of the walls at distance
    below 10 of its rectangle and the minimum is over all walls
    (infinite when there is no wall).  Where distances are not negative,
    a candidate that touches more walls than another scores strictly
    higher. *)
Theorem score_formula (self : PlacementSolver) (center : Point)
    (item : Item.t) (rotation : Z) :
  let rect := _create_rectangle center (Item.length item) (Item.width item) rotation in
  (exists minWallDistance,
      is_minimum minWallDistance (map (distance rect) (walls self))
      /\ float_eq (_calculate_position_score self center item rotation)
           (float_sub (inject_Z (Z.of_nat (touching_wall_count self rect)) * 10000)
                      minWallDistance))
  /\ ((forall r w, 0 <= distance r w) ->
      forall center' item' rotation',
        let rect' :=
          _create_rectangle center' (Item.length item') (Item.width item') rotation' in
        (touching_wall_count self rect' < touching_wall_count self rect)%nat ->
        float_lt (_calculate_position_score self center' item' rotation')
                 (_calculate_position_score self center item rotation)).
Proof.
  intro rect.
  destruct (score_closed_form self center item rotation) as (m & Hm & Hs).
  fold rect in Hm, Hs. split.
  - exists m. split; [exact Hm|]. rewrite Hs.
    destruct m; simpl; auto. ring.
  - intros Hpos center' item' rotation' rect' Hlt.
    destruct (score_closed_form self center' item' rotation') as (m' & Hm' & Hs').
    fold rect' in Hm', Hs'. rewrite Hs, Hs'.
    destruct (touching_minimum self rect m) as (d & -> & Hd); [lia|exact Hm|].
    assert (Hcount :
      inject_Z (Z.of_nat (touching_wall_count self rect')) + 1
      <= inject_Z (Z.of_nat (touching_wall_count self rect))).
    { change 1 with (inject_Z 1). rewrite <- inject_Z_plus, <- Zle_Qle. lia. }
    unfold float_lt.
    destruct m' as [|d'|]; simpl; [contradiction| |reflexivity].
    apply Qltb_lt.
    assert (Hd' : 0 <= d').
    { destruct Hm' as (Hin & _). apply in_map_iff in Hin as (w & <- & _).
      apply Hpos. }
    lra.
Qed.
End Score.

(** ** The door zone *)

Section DoorZone.
Context {K : Kernel}.

(** An absent door and a door of fewer than two points give no zone. *)
Lemma door_zone_absent (door : option (list Point)) (inward : bool) :
  door = None \/ (exists l, door = Some l /\ (List.length l < 2)%nat) ->
  _calculate_door_zone door inward = inr None.
Proof.
  intros [->|(l & -> & Hl)]; [reflexivity|].
  destruct l as [|p1 [|p2 l]]; simpl in *; try reflexivity; lia.
Qed.

(** The zone of an inward door, when one is computed, is a quadrilateral
    and so not empty. *)
Lemma door_zone_inward_not_empty (door : option (list Point)) (zone : Polygon) :
  _calculate_door_zone door true = inr (Some zone) -> is_empty zone = false.
Proof.
  destruct door as [[|p1 [|p2 l]]|]; simpl; try discriminate.
  unfold bind. destruct (py_div _ _); [discriminate|].
  destruct (py_div _ _); [discriminate|].
  intro H. injection H as <-. reflexivity.
Qed.

(** C7, where the code departs from it.  A door given by the same point
    twice has fewer than two distinct points, yet passes the guard on
    the number of points: its width is 0, and with an inward swing the
    division by the width raises [ZeroDivisionError], so that no solver
    is built; with an outward swing the zone is the buffered point, not
    none. *)
Theorem door_zone_coincident_points (p : Point) :
  (forall q, q == 0 -> sqrt q == 0) ->
  _calculate_door_zone (Some [p; p]) true = inl ZeroDivisionError
  /\ (forall boundary catalog self,
         __init__ boundary (Some [p; p]) true catalog <> inr self)
  /\ _calculate_door_zone (Some [p; p]) false = inr (Some (buffer (p, p) 100)).
Proof.
  intro Hsqrt.
  assert (H : _calculate_door_zone (Some [p; p]) true = inl ZeroDivisionError).
  { simpl. set (door_width := sqrt _).
    assert (Hw : door_width == 0).
    { apply Hsqrt. unfold Qpower. simpl. ring. }
    unfold py_div. apply Qeq_bool_iff in Hw. now rewrite Hw. }
  split; [exact H|]. split; [|reflexivity].
  intros boundary catalog self. unfold __init__, bind.
  destruct (_parse_items catalog); [discriminate|].
  rewrite H. discriminate.
Qed.
End DoorZone.

(** ** The clearance zone of a fridge *)

(** What [_calculate_fridge_door_zone] returns. *)
Lemma fridge_zone_coordinates (p : Placement.t) :
  let cx := fst (Placement.center p) in
  let cy := snd (Placement.center p) in
  let length := Item.length (Placement.item p) in
  let width := Item.width (Placement.item p) in
  (Item.item_type (Placement.item p) <> "fridge" ->
   _calculate_fridge_door_zone p = None)
  /\ (Item.item_type (Placement.item p) = "fridge" ->
      Placement.rotation p = 0%Z ->
      _calculate_fridge_door_zone p
      = Some [(cx + length / 2, cy - width / 2);
              (cx + length / 2 + width * 1, cy - width / 2);
              (cx + length / 2 + width * 1, cy + width / 2);
              (cx + length / 2, cy + width / 2)])
  /\ (Item.item_type (Placement.item p) = "fridge" ->
      Placement.rotation p = 90%Z ->
      _calculate_fridge_door_zone p
      = Some [(cx - length / 2, cy + width / 2);
              (cx + length / 2, cy + width / 2);
              (cx + length / 2, cy + width / 2 + width * 1);
              (cx - length / 2, cy + width / 2 + width * 1)]).
Proof.
  unfold _calculate_fridge_door_zone.
  destruct p as [[name length width ty] [cx cy] rot]. simpl.
  split; [|split].
  - intro H. apply String.eqb_neq in H. now rewrite H.
  - intros -> ->. reflexivity.
  - intros -> ->. reflexivity.
Qed.

(** At rotation 90 the rectangle of a fridge has its top edge at
    [cy + length / 2], between [cx - width / 2] and [cx + width / 2]; the
    zone starts at [cy + width / 2] and runs from [cx - length / 2] to
    [cx + length / 2].  The two meet only for a square fridge. *)
Lemma fridge_zone_rotation_90_edges (p : Placement.t) :
  Item.item_type (Placement.item p) = "fridge" ->
  Placement.rotation p = 90%Z ->
  let cx := fst (Placement.center p) in
  let cy := snd (Placement.center p) in
  let length := Item.length (Placement.item p) in
  let width := Item.width (Placement.item p) in
  nth_error (rect_of p) 3 = Some (cx - width / 2, cy + length / 2)
  /\ nth_error (rect_of p) 2 = Some (cx + width / 2, cy + length / 2)
  /\ (exists zone,
         _calculate_fridge_door_zone p = Some zone
         /\ nth_error zone 0 = Some (cx - length / 2, cy + width / 2)
         /\ nth_error zone 1 = Some (cx + length / 2, cy + width / 2))
  /\ (cy + width / 2 == cy + length / 2 <-> length == width).
Proof.
  intros Hty Hrot.
  destruct (fridge_zone_coordinates p) as (_ & _ & Hz).
  specialize (Hz Hty Hrot).
  unfold rect_of, _create_rectangle.
  destruct p as [[name length width ty] [cx cy] rot]. simpl in *. subst rot.
  simpl. split; [reflexivity|]. split; [reflexivity|]. split.
  - eexists. split; [exact Hz|]. split; reflexivity.
  - assert (E : forall x, x == 2 * (x / 2)) by (intro; field).
    split; intro H.
    + assert (H' : width / 2 == length / 2) by lra.
      rewrite (E length), (E width), H'. reflexivity.
    + rewrite H. reflexivity.
Qed.

(** C8. [_calculate_fridge_door_zone] returns none for a placement whose
    item is not a fridge.  For a fridge the zone is as deep as the fridge
    is wide: at rotation 0 it is the rectangle from x = cx + length/2 to
    cx + length/2 + width spanning y = cy - width/2 to cy + width/2, which
    starts at the right edge of the fridge's rectangle, and at rotation 90
    the rectangle from y = cy + width/2 to cy + width/2 + width spanning
    x = cx - length/2 to cx + length/2, which starts at the top edge of
    the box of the length along x and the width along y around the
    center. *)
Theorem fridge_zone_rectangle (p : Placement.t) :
  let cx := fst (Placement.center p) in
  let cy := snd (Placement.center p) in
  let length := Item.length (Placement.item p) in
  let width := Item.width (Placement.item p) in
  (Item.item_type (Placement.item p) <> "fridge" ->
   _calculate_fridge_door_zone p = None)
  /\ (Item.item_type (Placement.item p) = "fridge" ->
      Placement.rotation p = 0%Z ->
      exists zone,
        _calculate_fridge_door_zone p = Some zone
        /\ same_points zone
             (box_between (cx + length / 2) (cy - width / 2)
                          (cx + length / 2 + width) (cy + width / 2))
        /\ nth_error zone 0 = nth_error (rect_of p) 1
        /\ nth_error zone 3 = nth_error (rect_of p) 2)
  /\ (Item.item_type (Placement.item p) = "fridge" ->
      Placement.rotation p = 90%Z ->
      exists zone,
        _calculate_fridge_door_zone p = Some zone
        /\ same_points zone
             (box_between (cx - length / 2) (cy + width / 2)
                          (cx + length / 2) (cy + width / 2 + width))
        /\ nth_error zone 0
           = nth_error (centered_box (Placement.center p) length width) 3
        /\ nth_error zone 1
           = nth_error (centered_box (Placement.center p) length width) 2).
Proof.
  intros cx cy length width.
  destruct (fridge_zone_coordinates p) as (Hnone & H0 & H90).
  fold cx cy length width in H0, H90.
  split; [exact Hnone|]. split.
  - intros Hty Hrot. eexists. split; [exact (H0 Hty Hrot)|]. split.
    + unfold same_points, box_between.
      repeat constructor; cbn [fst snd]; ring.
    + unfold rect_of, _create_rectangle. rewrite Hrot.
      unfold cx, cy, length, width. destruct (Placement.center p). split; reflexivity.
  - intros Hty Hrot. eexists. split; [exact (H90 Hty Hrot)|]. split.
    + unfold same_points, box_between.
      repeat constructor; cbn [fst snd]; ring.
    + split; reflexivity.
Qed.

(** An example at rotation 90.  A fridge of length 600 and width 400 at
    the origin has the rectangle from (-200, -300) to (200, 300); the zone
    computed for it runs from (-300, 200) to (300, 600). *)
Theorem fridge_zone_rotation_90_off_edge :
  let p := Placement.mk (Item.mk "fridge1" 600 400 "fridge") (0, 0) 90 in
  reduced (rect_of p) = [(-200, -300); (200, -300); (200, 300); (-200, 300)]
  /\ option_map reduced (_calculate_fridge_door_zone p)
     = Some [(-300, 200); (300, 200); (300, 600); (-300, 600)].
Proof.
  split; vm_compute; reflexivity.
Qed.

(** ** The rectilinear kernel and the scenario *)

Lemma py_max_nonneg (x : Q) : 0 <= py_max 0 x.
Proof.
  unfold py_max. destruct (Qltb 0 x) eqn:E.
  - apply Qltb_lt in E. now apply Qlt_le_weak.
  - apply Qle_refl.
Qed.

Lemma rectilinear_sqrt_nonneg (q : Q) : 0 <= Rectilinear.sqrt q.
Proof.
  unfold Rectilinear.sqrt, Qle. simpl.
  pose proof (Z.sqrt_nonneg (Qnum q * Z.pos (Qden q))). lia.
Qed.

Lemma rectilinear_sqrt_zero (q : Q) : q == 0 -> Rectilinear.sqrt q == 0.
Proof.
  unfold Rectilinear.sqrt, Qeq. simpl. intro H.
  assert (Qnum q = 0%Z) by lia.
  rewrite H0. reflexivity.
Qed.

Lemma rectilinear_distance_nonneg (r : Polygon) (w : LineString) :
  0 <= Rectilinear.distance r w.
Proof.
  unfold Rectilinear.distance.
  destruct (Rectilinear.bbox r) as [[[rx0 ry0] rx1] ry1].
  destruct (Rectilinear.bbox [fst w; snd w]) as [[[lx0 ly0] lx1] ly1].
  unfold Rectilinear.hypot.
  destruct (Qeq_bool _ 0); [apply Qabs_nonneg|].
  destruct (Qeq_bool _ 0); [apply Qabs_nonneg|].
  apply rectilinear_sqrt_nonneg.
Qed.

Section Witnesses.
#[local] Existing Instance Rectilinear.kernel.

Ltac run := vm_compute; reflexivity.

Lemma solve_containment_witness :
  (Placement.rotation Scenario.first = 0%Z \/ Placement.rotation Scenario.first = 90%Z)
  /\ contains Scenario.boundary
       (centered_box (Placement.center Scenario.first)
                     (extent_x Scenario.first) (extent_y Scenario.first)) = true.
Proof.
  apply (solve_containment Scenario.boundary Scenario.door true Scenario.catalog
                           Scenario.solver).
  - run.
  - vm_compute. left. reflexivity.
Defined.

Lemma solve_non_overlap_witness :
  intersects (rect_of Scenario.second) (rect_of Scenario.first) = false
  /\ ((forall a b, intersects a b = intersects b a) ->
      intersects (rect_of Scenario.first) (rect_of Scenario.second) = false).
Proof.
  apply (solve_non_overlap Scenario.boundary Scenario.door true Scenario.catalog
                           Scenario.solver) with (i := 0%nat) (j := 1%nat).
  - run.
  - lia.
  - run.
  - run.
Defined.

Lemma solve_zone_clearance_witness :
  intersects (rect_of Scenario.first) scenario_door_zone = false
  /\ intersects (rect_of Scenario.second) scenario_fridge_zone = false.
Proof.
  destruct (solve_zone_clearance (K := Rectilinear.kernel) Scenario.boundary Scenario.door true
              Scenario.catalog Scenario.solver ltac:(run))
    as (Hdoor & Hfridge & _).
  split.
  - apply Hdoor.
    + vm_compute. left. reflexivity.
    + run.
    + run.
  - apply (Hfridge 0%nat 1%nat Scenario.first Scenario.second).
    + lia.
    + run.
    + run.
    + run.
Defined.

(** In the scenario the clearance zone of the fridge shares an edge with
    the fridge itself: checked against its own zone, the fridge could not
    have been placed. *)
Example fridge_meets_own_zone :
  intersects (rect_of Scenario.first) scenario_fridge_zone = true.
Proof. vm_compute. reflexivity. Qed.

Lemma solve_infeasible_report_witness :
  solve Scenario.cramped
  = (Scenario.cramped,
     {| feasible := false;
        placements_out := map Placement.to_dict (placements Scenario.cramped);
        message := Some ("无法摆放物品: " ++ Item.name Scenario.big_item)%string |})
  /\ map Placement.item (placements Scenario.cramped) = [].
Proof.
  destruct (solve_infeasible_report (K := Rectilinear.kernel) Scenario.small_boundary None true
              [("shelf1", [500; 500])] Scenario.cramped ltac:(run))
    as (Hstop & _).
  apply (Hstop [] Scenario.big_item []).
  - run.
  - reflexivity.
  - run.
Defined.

Lemma items_priority_order_witness :
  priority_ordered (items Scenario.solver)
  /\ priority_ordered
       (map Placement.item (placements (fst (solve Scenario.solver)))).
Proof.
  destruct (items_priority_order (K := Rectilinear.kernel) Scenario.boundary Scenario.door true
              Scenario.catalog Scenario.solver ltac:(run))
    as (_ & _ & _ & _ & Hitems & _ & _ & Hplaced).
  split; assumption.
Defined.

Lemma score_formula_witness :
  float_lt (_calculate_position_score Scenario.solver (500, 500)
              (Placement.item Scenario.first) 0)
           (_calculate_position_score Scenario.solver (700, 200)
              (Placement.item Scenario.first) 0).
Proof.
  destruct (score_formula Scenario.solver (700, 200)
              (Placement.item Scenario.first) 0) as (_ & Hmore).
  apply Hmore.
  - exact rectilinear_distance_nonneg.
  - vm_compute. lia.
Defined.

Lemma door_zone_coincident_points_witness :
  _calculate_door_zone (Some [(0, 0); (0, 0)]) true = inl ZeroDivisionError
  /\ (forall boundary catalog self,
         __init__ boundary (Some [(0, 0); (0, 0)]) true catalog <> inr self)
  /\ _calculate_door_zone (Some [(0, 0); (0, 0)]) false
     = inr (Some (buffer ((0, 0), (0, 0)) 100)).
Proof.
  apply (door_zone_coincident_points (0, 0)).
  exact rectilinear_sqrt_zero.
Defined.

Lemma fridge_zone_rectangle_witness :
  exists zone,
    _calculate_fridge_door_zone
      (Placement.mk (Item.mk "fridge1" 600 400 "fridge") (0, 0) 90) = Some zone
    /\ same_points zone
         (box_between (0 - 600 / 2) (0 + 400 / 2) (0 + 600 / 2) (0 + 400 / 2 + 400))
    /\ nth_error zone 0 = nth_error (centered_box (0, 0) 600 400) 3
    /\ nth_error zone 1 = nth_error (centered_box (0, 0) 600 400) 2.
Proof.
  apply (fridge_zone_rectangle
           (Placement.mk (Item.mk "fridge1" 600 400 "fridge") (0, 0) 90));
    reflexivity.
Defined.

Lemma solve_empty_catalog_witness :
  solve Scenario.bare
  = (Scenario.bare, {| feasible := true; placements_out := []; message := None |}).
Proof.
  apply (solve_empty_catalog Scenario.boundary Scenario.door true). run.
Defined.
End Witnesses.

(** * Further properties of the solver *)

(** ** Sampling *)

Lemma py_max_ge_r (a b : Q) : b <= py_max a b.
Proof.
  unfold py_max. destruct (Qltb a b) eqn:E.
  - apply Qle_refl.
  - now apply Qltb_ge in E.
Qed.

Lemma arange_In (start stop step d : Q) :
  0 < step ->
  In d (arange start stop step) ->
  exists i : nat,
    d = start + inject_Z (Z.of_nat i) * step
    /\ start <= d /\ d < stop.
Proof.
  intros Hstep Hin. unfold arange in Hin.
  apply in_map_iff in Hin as (i & <- & Hi). apply in_seq in Hi.
  exists i. split; [reflexivity|].
  set (q := (stop - start) / step) in *.
  assert (Hpos : (0 <= Z.of_nat i)%Z) by lia.
  assert (Hi' : (Z.of_nat i <= Qceiling q - 1)%Z) by lia.
  rewrite Zle_Qle in Hpos, Hi'.
  pose proof (Qceiling_lt q) as Hc.
  assert (Hlt : inject_Z (Z.of_nat i) < q) by (eapply Qle_lt_trans; eassumption).
  assert (Hq : q * step == stop - start) by (unfold q; field; lra).
  apply (Qmult_lt_r _ _ step Hstep) in Hlt. rewrite Hq in Hlt.
  pose proof (Qmult_le_0_compat _ _ Hpos (Qlt_le_weak _ _ Hstep)).
  split; lra.
Qed.

Lemma arange_empty (start stop step : Q) :
  0 < step -> stop <= start -> arange start stop step = [].
Proof.
  intros Hstep Hle. unfold arange.
  assert (H : (Qceiling ((stop - start) / step) <= 0)%Z).
  { change 0%Z with (Qceiling 0). apply Qceiling_resp_le.
    apply Qle_shift_div_r; [exact Hstep|]. lra. }
  destruct (Qceiling ((stop - start) / step)); simpl; try reflexivity; lia.
Qed.

(** ** Candidates along a wall *)

Section WallCandidates.
Context {K : Kernel}.

(** What a candidate of [_generate_wall_positions] is made of. *)
Lemma wall_positions_inv (p1 p2 : Point) (item : Item.t) (c : Point) (r : Z) :
  In (c, r) (_generate_wall_positions (p1, p2) item) ->
  let wall_length := line_length (p1, p2) in
  let dx := fst p2 - fst p1 in
  let dy := snd p2 - snd p1 in
  exists dist offset along,
    (r = 0%Z /\ offset = Item.width item / 2 /\ along = Item.length item
     \/ r = 90%Z /\ offset = Item.length item / 2 /\ along = Item.width item)
    /\ 0 <= dist /\ dist < wall_length
    /\ along / 2 <= dist /\ dist + along / 2 <= wall_length
    /\ c = (fst p1 + dist / wall_length * dx + - dy / wall_length * offset,
            snd p1 + dist / wall_length * dy + dx / wall_length * offset).
Proof.
  intros Hin wall_length dx dy. unfold _generate_wall_positions in Hin.
  fold wall_length dx dy in Hin.
  apply in_flat_map in Hin as (dist & Hd & Hin).
  apply arange_In in Hd as (_ & _ & Hd0 & Hd1).
  2:{ apply Qlt_le_trans with 1; [reflexivity|apply py_max_ge_r]. }
  apply in_flat_map in Hin as (rot & Hrot & Hin).
  assert (Hcase : rot = 0%Z \/ rot = 90%Z) by (simpl in Hrot; intuition).
  destruct Hcase as [-> | ->]; cbn [Z.eqb] in Hin;
    match type of Hin with
    | In _ (if ?b1 || ?b2 then _ else _) =>
        destruct b1 eqn:E1; [destruct Hin|];
        destruct b2 eqn:E2; [destruct Hin|]
    end;
    simpl in Hin; destruct Hin as [Hin|[]]; injection Hin as <- <-;
    apply Qltb_ge in E1, E2.
  - exists dist, (Item.width item / 2), (Item.length item).
    split; [now left|]. repeat split; auto; lra.
  - exists dist, (Item.length item / 2), (Item.width item).
    split; [now right|]. repeat split; auto; lra.
Qed.

(** X1. A candidate along a wall exists only for a wall of positive length
    that is at least as long as the side of the item laid along it (the
    length at rotation 0, the width at rotation 90); the item is centered
    on a sample point at which its footprint along the wall stays between
    the two ends of the wall. *)
Theorem wall_positions_within_wall (p1 p2 : Point) (item : Item.t) (c : Point) (r : Z) :
  In (c, r) (_generate_wall_positions (p1, p2) item) ->
  let wall_length := line_length (p1, p2) in
  let along := if Z.eqb r 0 then Item.length item else Item.width item in
  0 < wall_length
  /\ along <= wall_length
  /\ exists dist,
       0 <= dist - along / 2
       /\ dist + along / 2 <= wall_length
       /\ fst c == fst p1 + dist / wall_length * (fst p2 - fst p1)
                   - (snd p2 - snd p1) / wall_length
                     * ((if Z.eqb r 0 then Item.width item else Item.length item) / 2)
       /\ snd c == snd p1 + dist / wall_length * (snd p2 - snd p1)
                   + (fst p2 - fst p1) / wall_length
                     * ((if Z.eqb r 0 then Item.width item else Item.length item) / 2).
Proof.
  intros Hin wall_length along.
  apply wall_positions_inv in Hin
    as (dist & offset & al & Hcase & H0 & H1 & H2 & H3 & ->).
  fold wall_length in H1, H3 |- *.
  assert (Hal : al = along /\ offset
                = (if Z.eqb r 0 then Item.width item else Item.length item) / 2).
  { unfold along. destruct Hcase as [(-> & -> & ->)|(-> & -> & ->)]; now split. }
  destruct Hal as (-> & ->).
  assert (Ehalf : along == 2 * (along / 2)) by field.
  split; [lra|]. split; [lra|].
  exists dist. split; [lra|]. split; [lra|].
  simpl. split; unfold Qdiv; ring.
Qed.

(** X2. A wall of length zero (or less) gives no candidate, and neither
    does a wall shorter than both sides of the item: the division by the
    wall length is never reached for a degenerate wall. *)
Theorem wall_positions_none (p1 p2 : Point) (item : Item.t) :
  line_length (p1, p2) <= 0
  \/ (line_length (p1, p2) < Item.length item
      /\ line_length (p1, p2) < Item.width item) ->
  _generate_wall_positions (p1, p2) item = [].
Proof.
  intro H.
  destruct (_generate_wall_positions (p1, p2) item) as [|[c r] l] eqn:E;
    [reflexivity|exfalso].
  assert (Hin : In (c, r) (_generate_wall_positions (p1, p2) item))
    by (rewrite E; now left).
  apply wall_positions_inv in Hin
    as (dist & offset & al & Hcase & H0 & H1 & H2 & H3 & _).
  destruct H as [H|(Hl & Hw)]; [lra|].
  assert (Ehalf : al == 2 * (al / 2)) by field.
  destruct Hcase as [(_ & _ & ->)|(_ & _ & ->)]; lra.
Qed.

(** X3. The center of a candidate is displaced from its sample point on
    the wall at a right angle to the wall, and, for an item of
    non-negative sides, never to the right of the direction in which the
    wall runs from its first to its second point: on which side of the
    wall the candidates lie is decided by the order of the boundary
    points. *)
Theorem wall_positions_left_of_wall (p1 p2 : Point) (item : Item.t) (c : Point) (r : Z) :
  0 <= Item.length item -> 0 <= Item.width item ->
  In (c, r) (_generate_wall_positions (p1, p2) item) ->
  let dx := fst p2 - fst p1 in
  let dy := snd p2 - snd p1 in
  exists t,
    0 <= t /\ t < 1
    /\ let sample := (fst p1 + t * dx, snd p1 + t * dy) in
       (fst c - fst sample) * dx + (snd c - snd sample) * dy == 0
       /\ 0 <= dx * (snd c - snd sample) - dy * (fst c - fst sample).
Proof.
  intros Hl Hw Hin dx dy.
  apply wall_positions_inv in Hin
    as (dist & offset & al & Hcase & H0 & H1 & H2 & H3 & ->).
  fold dx dy in H1 |- *. set (wl := line_length (p1, p2)) in *.
  assert (Hwl : 0 < wl) by lra.
  assert (Hoff : 0 <= offset).
  { destruct Hcase as [(_ & -> & _)|(_ & -> & _)];
      apply Qle_shift_div_l; lra. }
  exists (dist / wl). split; [apply Qle_shift_div_l; lra|].
  split; [apply Qlt_shift_div_r; lra|].
  cbn [fst snd]. split; [unfold Qdiv; ring|].
  assert (E : dx * (snd p1 + dist / wl * dy + dx / wl * offset - (snd p1 + dist / wl * dy))
              - dy * (fst p1 + dist / wl * dx + - dy / wl * offset
                      - (fst p1 + dist / wl * dx))
              == (dx * dx + dy * dy) * (offset / wl))
    by (unfold Qdiv; ring).
  rewrite E. apply Qmult_le_0_compat.
  - assert (0 <= dx * dx) by (destruct (Qlt_le_dec dx 0); nra).
    assert (0 <= dy * dy) by (destruct (Qlt_le_dec dy 0); nra).
    lra.
  - apply Qle_shift_div_l; lra.
Qed.
End WallCandidates.

(** ** Candidates in the interior *)

Section InteriorCandidates.
Context {K : Kernel}.

(** X4. An interior candidate is centered on a point of the grid of step
    200 laid from the lower left corner of the bounding box of the room,
    inside the box and contained in the room polygon according to the
    kernel; the grid does not depend on the item, and each grid point is
    offered with both rotations. *)
Theorem interior_positions_grid (self : PlacementSolver) (item : Item.t)
    (c : Point) (r : Z) :
  In (c, r) (_generate_interior_positions self item) ->
  let minx := fst (fst (fst (bounds (boundary_polygon self)))) in
  let miny := snd (fst (fst (bounds (boundary_polygon self)))) in
  let maxx := snd (fst (bounds (boundary_polygon self))) in
  let maxy := snd (bounds (boundary_polygon self)) in
  contains_point (boundary_polygon self) c = true
  /\ (exists i j : nat,
         c = (minx + inject_Z (Z.of_nat i) * 200, miny + inject_Z (Z.of_nat j) * 200))
  /\ minx <= fst c /\ fst c < maxx /\ miny <= snd c /\ snd c < maxy
  /\ In (c, 0%Z) (_generate_interior_positions self item)
  /\ In (c, 90%Z) (_generate_interior_positions self item).
Proof.
  unfold _generate_interior_positions.
  destruct (bounds (boundary_polygon self)) as [[[minx miny] maxx] maxy]. simpl.
  intro Hin. apply in_flat_map in Hin as (x & Hx & Hin).
  apply in_flat_map in Hin as (y & Hy & Hin).
  destruct (contains_point (boundary_polygon self) (x, y)) eqn:Ec; [|destruct Hin].
  assert (c = (x, y)) by (destruct Hin as [H|[H|[]]]; congruence). subst c.
  assert (Hboth : forall r', r' = 0%Z \/ r' = 90%Z ->
    In ((x, y), r')
       (flat_map (fun x0 =>
          flat_map (fun y0 =>
            if contains_point (boundary_polygon self) (x0, y0)
            then map (fun rotation : Z => ((x0, y0), rotation)) [0%Z; 90%Z]
            else []) (arange miny maxy 200)) (arange minx maxx 200))).
  { intros r' Hr'. apply in_flat_map. exists x. split; [exact Hx|].
    apply in_flat_map. exists y. split; [exact Hy|]. rewrite Ec. simpl.
    destruct Hr' as [-> | ->]; auto. }
  apply arange_In in Hx as (i & Ei & Hx0 & Hx1); [|reflexivity].
  apply arange_In in Hy as (j & Ej & Hy0 & Hy1); [|reflexivity].
  split; [exact Ec|]. split; [exists i, j; congruence|].
  simpl. repeat split; auto.
Qed.
End InteriorCandidates.

(** ** Walls *)

Lemma map_nth_seq {A : Type} (l : list A) (d : A) :
  map (fun i => nth i l d) (seq 0 (List.length l)) = l.
Proof.
  induction l as [|a l IH]; [reflexivity|].
  simpl. f_equal. rewrite <- seq_shift, map_map. exact IH.
Qed.

(** X5. The walls form the closed ring of the boundary: the wall number
    [i] starts at the boundary point number [i], and the end points are
    the boundary points rotated by one, so that each wall ends where the
    next one starts and the last wall ends at the first point.  A boundary
    without points has no wall; a single point gives one wall from the
    point to itself. *)
Theorem extract_walls_ring (boundary : list Point) :
  map fst (_extract_walls boundary) = boundary
  /\ map snd (_extract_walls boundary) = tl boundary ++ firstn 1 boundary.
Proof.
  unfold _extract_walls. rewrite !map_map. simpl. split.
  - apply map_nth_seq.
  - destruct boundary as [|p t]; [reflexivity|].
    cbn [List.length tl firstn]. rewrite seq_S, map_app. cbn [map].
    rewrite Nat.add_0_l, Nat.add_1_r, Nat.Div0.mod_same. cbn [nth]. f_equal.
    rewrite <- (map_nth_seq t (0, 0)) at 2.
    apply map_ext_in. intros i Hi. apply in_seq in Hi.
    rewrite Nat.mod_small by lia. rewrite Nat.add_1_r. reflexivity.
Qed.

(** ** Parsing the catalog *)

Lemma parse_item_ok (name : string) (dims : list Q) :
  (2 <= List.length dims)%nat ->
  exists it, parse_item name dims = inr it /\ parsed_from (name, dims) it.
Proof.
  destruct dims as [|d0 [|d1 dims]]; simpl; try lia. intros _.
  eexists. split; [reflexivity|]. repeat split.
Qed.

Lemma parse_item_short (name : string) (dims : list Q) :
  (List.length dims < 2)%nat -> parse_item name dims = inl IndexError.
Proof.
  destruct dims as [|d0 [|d1 dims]]; simpl; try lia; reflexivity.
Qed.

Lemma parse_all_short (catalog : list (string * list Q)) :
  Exists (fun entry => (List.length (snd entry) < 2)%nat) catalog ->
  parse_all catalog = inl IndexError.
Proof.
  induction 1 as [[name dims] rest H|[name dims] rest H IH]; simpl in *.
  - now rewrite parse_item_short.
  - unfold bind. destruct (parse_item name dims) as [e|it] eqn:E.
    + unfold parse_item, bind, py_index in E.
      destruct (nth_error dims 0); [|now inversion E].
      destruct (nth_error dims 1); [discriminate|now inversion E].
    + now rewrite IH.
Qed.

Lemma parse_all_ok (catalog : list (string * list Q)) :
  Forall (fun entry => (2 <= List.length (snd entry))%nat) catalog ->
  exists parsed, parse_all catalog = inr parsed /\ Forall2 parsed_from catalog parsed.
Proof.
  induction 1 as [|[name dims] rest Hd Hr IH].
  - exists []. split; [reflexivity|constructor].
  - destruct IH as (parsed & Hp & Hf).
    destruct (parse_item_ok name dims Hd) as (it & Hit & Hfrom).
    exists (it :: parsed). split; [|now constructor].
    simpl. unfold bind. now rewrite Hit, Hp.
Qed.

(** X6. A catalog whose entries all have at least two numbers is parsed
    into one item per entry, with the entry's name and its first two
    numbers as length and width (further numbers are ignored), then
    sorted.  An entry with fewer than two numbers makes [_parse_items]
    raise [IndexError]. *)
Theorem parse_items_dims (catalog : list (string * list Q)) :
  (Forall (fun entry => (2 <= List.length (snd entry))%nat) catalog ->
   exists parsed,
     Forall2 parsed_from catalog parsed
     /\ _parse_items catalog = inr (list_sort key_ltb sort_key parsed))
  /\ (Exists (fun entry => (List.length (snd entry) < 2)%nat) catalog ->
      _parse_items catalog = inl IndexError).
Proof.
  split.
  - intro H. apply parse_all_ok in H as (parsed & Hp & Hf).
    exists parsed. split; [exact Hf|].
    unfold _parse_items, bind. now rewrite Hp.
  - intro H. apply parse_all_short in H.
    unfold _parse_items, bind. now rewrite H.
Qed.

(** ** Ties in the sort *)

Section Stability.
Variables (A B : Type) (ltb : B -> B -> bool) (key : A -> B) (P : A -> bool).

Hypothesis same_class :
  forall x y, P x = true -> P y = true -> ltb (key y) (key x) = false.

Lemma insert_sorted_filter (x : A) (l : list A) :
  Forall (fun y => P x = true -> P y = true -> ltb (key y) (key x) = false) l ->
  filter P (insert_sorted ltb key x l) = filter P (x :: l).
Proof.
  induction 1 as [|y l Hy Hl IH]; [reflexivity|].
  cbn [insert_sorted]. destruct (ltb (key y) (key x)) eqn:E; [|reflexivity].
  cbn [filter] in *. rewrite IH.
  destruct (P x) eqn:Ex, (P y) eqn:Ey; try reflexivity.
  specialize (Hy eq_refl eq_refl). congruence.
Qed.

Lemma list_sort_filter (l : list A) :
  filter P (list_sort ltb key l) = filter P l.
Proof.
  induction l as [|x l IH]; [reflexivity|].
  cbn [list_sort fold_right]. fold (list_sort ltb key l).
  rewrite insert_sorted_filter.
  - cbn [filter]. now rewrite IH.
  - apply Forall_forall. intros y _. apply same_class.
Qed.
End Stability.

(** X7. Items that tie in the sort, with the same priority and equal
    areas, stay in the order in which the catalog lists them: the sort of
    [_parse_items] is stable. *)
Theorem parse_items_stable (catalog : list (string * list Q)) (its : list Item.t) :
  _parse_items catalog = inr its ->
  exists parsed,
    parse_all catalog = inr parsed
    /\ forall p a, filter (ties_with p a) its = filter (ties_with p a) parsed.
Proof.
  unfold _parse_items, bind.
  destruct (parse_all catalog) as [|parsed]; [discriminate|].
  intro H. injection H as <-. exists parsed. split; [reflexivity|].
  intros p a. apply list_sort_filter.
  intros x y Hx Hy. unfold ties_with in Hx, Hy.
  apply andb_true_iff in Hx as (Hx1 & Hx2), Hy as (Hy1 & Hy2).
  apply Z.eqb_eq in Hx1, Hy1. apply Qeq_bool_iff in Hx2, Hy2.
  apply key_ltb_false. right. unfold sort_key. cbn [fst snd].
  unfold priority_of in Hx1, Hy1. split; [congruence|].
  rewrite Hx2, Hy2. apply Qle_refl.
Qed.

(** ** The choice among the valid positions *)

Lemma float_ltb_asym (a b : PyFloat) : float_ltb a b = true -> float_ltb b a = false.
Proof.
  destruct a, b; simpl; try congruence.
  rewrite Qltb_lt, Qltb_ge. apply Qlt_le_weak.
Qed.

Lemma float_ltb_irrefl (a : PyFloat) : float_ltb a a = false.
Proof.
  destruct (float_ltb a a) eqn:E; [|reflexivity].
  now rewrite (float_ltb_asym _ _ E) in E.
Qed.

Section Selection.
Context {K : Kernel}.

(** X8. The position at which an item is committed is a valid candidate
    carrying its own score; no valid candidate scores strictly higher, and
    among the valid candidates of that score it is the first in the order
    of enumeration (walls in boundary order, then the interior grid). *)
Theorem best_position_maximal (self : PlacementSolver) (item : Item.t)
    (sc : PyFloat) (c : Point) (r : Z) :
  best_position self item = Some (sc, c, r) ->
  In (c, r) (candidates self item)
  /\ _is_valid_placement self c item r = true
  /\ sc = _calculate_position_score self c item r
  /\ (forall c' r',
         In (c', r') (candidates self item) ->
         _is_valid_placement self c' item r' = true ->
         float_ltb sc (_calculate_position_score self c' item r') = false)
  /\ exists earlier later,
       valid_positions self item = earlier ++ (sc, c, r) :: later
       /\ forall x, In x earlier -> float_ltb (fst (fst x)) sc = true.
Proof.
  intro Hb. destruct (best_position_valid _ _ _ _ _ Hb) as (Hc & Hv & Hs).
  apply best_position_first_max in Hb as (l1 & l2 & E & Hlt & Hge).
  split; [exact Hc|]. split; [exact Hv|]. split; [exact Hs|]. split.
  - intros c' r' Hc' Hv'.
    assert (Hin : In (_calculate_position_score self c' item r', c', r')
                     (valid_positions self item))
      by (apply valid_positions_In; auto).
    rewrite E in Hin. apply in_app_or in Hin as [Hin|[Hin|Hin]].
    + apply float_ltb_asym. exact (Hlt _ Hin).
    + injection Hin as <- _ _. apply float_ltb_irrefl.
    + exact (Hge _ Hin).
  - exists l1, l2. split; [exact E|exact Hlt].
Qed.
End Selection.

(** ** What commits do to the solver *)

Section AppendOnly.
Context {K : Kernel}.

Lemma commit_all_appends (its : list Item.t) (self sk : PlacementSolver) :
  commit_all self its = Some sk ->
  exists ps,
    map Placement.item ps = its
    /\ placements sk = placements self ++ ps
    /\ placed_polygons sk = placed_polygons self ++ map rect_of ps
    /\ fridge_zones sk = fridge_zones self ++ zones_of ps.
Proof.
  revert self. induction its as [|item rest IH]; intros self H; simpl in H.
  - injection H as <-. exists []. simpl. now rewrite !app_nil_r.
  - destruct (best_position self item) as [[[sc c] r]|]; [|discriminate].
    apply IH in H as (ps & Hit & Hp & Hpp & Hz).
    exists (Placement.mk item c r :: ps). split; [simpl; now rewrite Hit|].
    rewrite Hp, Hpp, Hz, commit_fridge_zones. cbn [commit placements placed_polygons].
    rewrite <- !app_assoc. repeat split.
Qed.

Lemma candidates_static (s s' : PlacementSolver) (item : Item.t) :
  walls s = walls s' -> boundary_polygon s = boundary_polygon s' ->
  candidates s item = candidates s' item.
Proof.
  unfold candidates, _generate_interior_positions. now intros -> ->.
Qed.

Lemma score_static (s s' : PlacementSolver) (item : Item.t) c r :
  walls s = walls s' ->
  _calculate_position_score s c item r = _calculate_position_score s' c item r.
Proof.
  unfold _calculate_position_score. now intros ->.
Qed.

(** X9. Commits only take positions away: a candidate that is valid after
    further items were committed was valid before, with the same score,
    so the valid positions of an item after the commits are among those
    before; an item without a valid position has none later either. *)
Theorem later_valid_was_valid (its : list Item.t) (self sk : PlacementSolver)
    (item : Item.t) :
  commit_all self its = Some sk ->
  (forall c r, _is_valid_placement sk c item r = true ->
               _is_valid_placement self c item r = true)
  /\ (forall x, In x (valid_positions sk item) -> In x (valid_positions self item))
  /\ (valid_positions self item = [] -> valid_positions sk item = []).
Proof.
  intro H.
  destruct (commit_all_spec _ _ _ H) as (Hs & _ & _).
  destruct (commit_all_appends _ _ _ H) as (ps & _ & _ & Hpp & Hz).
  pose proof (f_equal boundary_polygon (Hs [])) as Hb.
  pose proof (f_equal door_restricted_zone (Hs [])) as Hd.
  pose proof (f_equal walls (Hs [])) as Hw.
  cbn [state_at boundary_polygon door_restricted_zone walls] in Hb, Hd, Hw.
  assert (Hvalid : forall c r, _is_valid_placement sk c item r = true ->
                               _is_valid_placement self c item r = true).
  { intros c r Hv. apply is_valid_placement_true in Hv as (H1 & H2 & H3 & H4).
    apply is_valid_placement_true. rewrite <- Hb, <- Hd.
    split; [exact H1|]. split; [exact H2|]. split.
    - intros q Hq. apply H3. rewrite Hpp. apply in_or_app. now left.
    - intros q Hq. apply H4. rewrite Hz. apply in_or_app. now left. }
  assert (Hincl : forall x, In x (valid_positions sk item) ->
                            In x (valid_positions self item)).
  { intros [[sc c] r] Hin. apply valid_positions_In in Hin as (Hc & Hv & ->).
    apply valid_positions_In.
    rewrite <- (candidates_static sk self item Hw Hb).
    split; [exact Hc|]. split; [now apply Hvalid|]. now apply score_static. }
  split; [exact Hvalid|]. split; [exact Hincl|].
  intro He. destruct (valid_positions sk item) as [|x l] eqn:E; [reflexivity|].
  specialize (Hincl x (or_introl eq_refl)). rewrite He in Hincl. destruct Hincl.
Qed.

(** X10. [solve] only appends, whatever state the solver is in when it is
    called: the placements it leaves are those it found followed by new
    ones, one for each item of an initial part of the sorted items, the
    list of rectangles grows by the rectangles of the new placements, the
    returned list reports all of them, old and new, and the room, the
    door zone, the walls and the items are left as they were.  In
    particular a second call on the same solver reports the placements of
    the first call again. *)
Theorem solve_append_only (self : PlacementSolver) :
  let final := fst (solve self) in
  exists ps rest,
    items self = map Placement.item ps ++ rest
    /\ placements final = placements self ++ ps
    /\ placed_polygons final = placed_polygons self ++ map rect_of ps
    /\ placements_out (snd (solve self))
       = map Placement.to_dict (placements self ++ ps)
    /\ boundary_polygon final = boundary_polygon self
    /\ door_restricted_zone final = door_restricted_zone self
    /\ walls final = walls self
    /\ items final = items self.
Proof.
  intro final.
  destruct (solve_loop_final (items self) self) as (done & rest & E & H & Hout).
  fold (solve self) in H, Hout. fold final in H, Hout.
  destruct (commit_all_spec _ _ _ H) as (Hs & _ & _).
  destruct (commit_all_appends _ _ _ H) as (ps & Hit & Hp & Hpp & _).
  exists ps, rest. rewrite Hit, Hout, Hp.
  split; [exact E|]. split; [reflexivity|]. split; [exact Hpp|].
  split; [reflexivity|].
  split; [exact (f_equal boundary_polygon (Hs []))|].
  split; [exact (f_equal door_restricted_zone (Hs []))|].
  split; [exact (f_equal walls (Hs []))|exact (f_equal items (Hs []))].
Qed.
End AppendOnly.

(** ** The reported placements *)

Section Output.
Context {K : Kernel}.

Variables (boundary : list Point) (door : option (list Point))
          (inward : bool) (catalog : list (string * list Q)).
Variable self : PlacementSolver.
Hypothesis built : __init__ boundary door inward catalog = inr self.

Lemma items_names_permutation :
  Permutation (map fst catalog) (map Item.name (items self)).
Proof.
  destruct (init_fresh _ _ _ _ _ built) as (_ & _ & _ & Hparse & _).
  unfold _parse_items, bind in Hparse.
  destruct (parse_all catalog) as [|parsed] eqn:Ep; [discriminate|].
  injection Hparse as <-.
  destruct (parse_all_fields _ _ Ep) as (<- & _).
  apply Permutation_map, list_sort_perm.
Qed.

(** X11. When the names of the catalog are distinct, as the keys of a
    dictionary are, the placements [solve] reports name each item at most
    once and only items of the catalog; each carries a center of two
    coordinates and the rotation 0 or 90; and when the outcome is feasible
    the reported names are exactly those of the catalog. *)
Theorem solve_output_names :
  NoDup (map fst catalog) ->
  let out := snd (solve self) in
  NoDup (map Placement.d_item (placements_out out))
  /\ (forall name, In name (map Placement.d_item (placements_out out)) ->
                   In name (map fst catalog))
  /\ Forall (fun d => List.length (Placement.d_center d) = 2%nat
                      /\ (Placement.d_rotation d = 0%Z \/ Placement.d_rotation d = 90%Z))
            (placements_out out)
  /\ (feasible out = true ->
      Permutation (map Placement.d_item (placements_out out)) (map fst catalog)).
Proof.
  intros Hnodup out.
  destruct (solve_committed _ _ _ _ _ built)
    as ((_ & _ & Hh) & _ & _ & _ & (done & rest & E & Hmap & _)).
  destruct (solve_loop_final (items self) self) as (_ & _ & _ & _ & Hout).
  fold (solve self) in Hout. fold out in Hout.
  assert (Hnames : map Placement.d_item (placements_out out) = map Item.name done).
  { rewrite Hout, <- Hmap, !map_map. reflexivity. }
  pose proof items_names_permutation as Hperm.
  rewrite E, map_app in Hperm.
  split; [|split; [|split]].
  - rewrite Hnames. apply (Permutation_NoDup Hperm) in Hnodup.
    now apply NoDup_app_remove_r in Hnodup.
  - intros name Hin. rewrite Hnames in Hin.
    apply (Permutation_in _ (Permutation_sym Hperm)).
    apply in_or_app. now left.
  - rewrite Hout. apply Forall_forall. intros d Hd.
    apply in_map_iff in Hd as (p & <- & Hp). split; [reflexivity|].
    apply in_split in Hp as (pre & post & Ep).
    destruct (Hh _ _ _ Ep) as (_ & Hc).
    now apply candidates_rotation in Hc.
  - intro Hf. rewrite Hnames.
    assert (rest = []).
    { unfold out, solve in Hf.
      destruct (solve_loop_outcome (items self) self)
        as [(sk & H1 & H2)|(pre & it & post & sk & _ & _ & _ & H2)].
      - destruct (commit_all_spec _ _ _ H1) as (_ & (ps & Hps & Hit) & _).
        destruct (init_fresh _ _ _ _ _ built) as (Hp0 & _).
        assert (Hd : map Placement.item (placements (fst (solve self))) = items self).
        { unfold solve. rewrite H2. simpl. now rewrite Hps, Hp0. }
        rewrite Hmap, E in Hd.
        rewrite <- (app_nil_r done) in Hd at 1.
        now apply app_inv_head in Hd.
      - rewrite H2 in Hf. discriminate. }
    subst rest. rewrite app_nil_r in Hperm. now apply Permutation_sym.
Qed.

(** X12. There is one clearance zone for each fridge among the committed
    placements, in the order of commit, and none for any other item. *)
Theorem solve_fridge_zones :
  let final := fst (solve self) in
  fridge_zones final = zones_of (filter is_fridge (placements final))
  /\ List.length (fridge_zones final)
     = List.length (filter is_fridge (placements final)).
Proof.
  intro final.
  destruct (solve_committed _ _ _ _ _ built) as ((_ & Hz & _) & _).
  fold final in Hz. rewrite Hz. clear.
  induction (placements final) as [|p ps (IH1 & IH2)]; [now split|].
  unfold zones_of in *. cbn [flat_map filter].
  destruct (is_fridge p) eqn:F; unfold is_fridge in F.
  - cbn [flat_map]. rewrite <- IH1. split; [reflexivity|].
    apply String.eqb_eq in F.
    destruct (_calculate_fridge_door_zone p) as [zone|] eqn:Ez.
    + replace (zone_list p) with [zone] by (unfold zone_list; now rewrite Ez).
      simpl. now rewrite IH2.
    + apply fridge_zone_none in Ez. contradiction.
  - apply String.eqb_neq, fridge_zone_none in F.
    replace (zone_list p) with (@nil Polygon) by (unfold zone_list; now rewrite F).
    simpl. now split.
Qed.
End Output.

(** ** The square of an inward door *)

Section DoorSquare.
Context {K : Kernel}.

(** X13. For an inward door whose computed width is not zero, the zone is
    the quadrilateral on the door segment whose other two corners are the
    door points moved by the door vector turned a quarter turn to the
    left, whatever the precision of the square root; further door points
    are ignored.  The zone therefore lies to the left of the direction
    from the first door point to the second, and giving the two points in
    the other order puts it on the other side of the door. *)
Theorem door_zone_inward_square (p1 p2 : Point) (more : list Point) :
  let dx := fst p2 - fst p1 in
  let dy := snd p2 - snd p1 in
  ~ sqrt (dx ^ 2 + dy ^ 2) == 0 ->
  exists p3 p4,
    _calculate_door_zone (Some (p1 :: p2 :: more)) true = inr (Some [p1; p2; p3; p4])
    /\ fst p3 == fst p2 - dy /\ snd p3 == snd p2 + dx
    /\ fst p4 == fst p1 - dy /\ snd p4 == snd p1 + dx.
Proof.
  intros dx dy Hw. cbn [_calculate_door_zone]. fold dx dy.
  set (door_width := sqrt (dx ^ 2 + dy ^ 2)) in *.
  unfold py_div.
  destruct (Qeq_bool door_width 0) eqn:E;
    [apply Qeq_bool_iff in E; contradiction|].
  cbn [bind ret]. eexists. eexists. split; [reflexivity|].
  cbn [fst snd]. repeat split; field; exact Hw.
Qed.
End DoorSquare.

(** ** Bounds on the score, and square items *)

Section ScoreBounds.
Context {K : Kernel}.

(** X14. Where distances are not negative: in a room without walls every
    score is minus infinity; otherwise the score is finite, at most
    10000 times the number of walls the rectangle touches, more than that
    less 10 when it touches a wall, and at most -10 when it touches
    none. *)
Theorem score_bounds (self : PlacementSolver) (center : Point)
    (item : Item.t) (rotation : Z) :
  (forall r w, 0 <= distance r w) ->
  let rect := _create_rectangle center (Item.length item) (Item.width item) rotation in
  let k := touching_wall_count self rect in
  (walls self = [] -> _calculate_position_score self center item rotation = NegInf)
  /\ (walls self <> [] ->
      exists s,
        _calculate_position_score self center item rotation = Fin s
        /\ s <= inject_Z (Z.of_nat k) * 10000
        /\ ((0 < k)%nat -> inject_Z (Z.of_nat k) * 10000 - 10 < s)
        /\ (k = O -> s <= - (10))).
Proof.
  intros Hpos rect k.
  destruct (score_closed_form self center item rotation) as (m & Hm & Hs).
  fold rect in Hm, Hs. fold k in Hs. rewrite Hs. split.
  - intro Hw. rewrite Hw in Hm. destruct m as [|d|]; simpl in Hm.
    + contradiction.
    + now destruct Hm.
    + reflexivity.
  - intro Hw. destruct m as [|d|]; simpl in Hm; [contradiction| |].
    2:{ apply map_eq_nil in Hm. contradiction. }
    destruct Hm as (Hin & Hall). exists (0 + inject_Z (Z.of_nat k) * 10000 - d).
    split; [reflexivity|].
    assert (Hd : 0 <= d).
    { apply in_map_iff in Hin as (w & <- & _). apply Hpos. }
    split; [lra|]. split.
    + intro Hk.
      destruct (touching_minimum self rect (Fin d) Hk) as (d' & Ed & Hd').
      { simpl. now split. }
      injection Ed as <-. lra.
    + intro Hk. rewrite Hk. change (inject_Z (Z.of_nat 0)) with 0.
      assert (10 <= d); [|lra].
      apply in_map_iff in Hin as (w & <- & Hin).
      unfold k, touching_wall_count in Hk. apply length_zero_iff_nil in Hk.
      destruct (Qltb (distance rect w) 10) eqn:E; [|now apply Qltb_ge in E].
      assert (Hf : In w (filter (fun wall => Qltb (distance rect wall) 10) (walls self)))
        by (apply filter_In; now split).
      rewrite Hk in Hf. destruct Hf.
Qed.

(** X15. A rotation other than 0 is taken for 90, which is the rectangle
    of the item with length and width exchanged at rotation 0; so for an
    item whose length and width are the same number the rectangle, the
    validity of a position and its score do not depend on the rotation. *)
Theorem square_item_rotation_irrelevant (self : PlacementSolver) (c : Point)
    (item : Item.t) (r r' : Z) :
  (r <> 0%Z ->
   _create_rectangle c (Item.length item) (Item.width item) r
   = _create_rectangle c (Item.width item) (Item.length item) 0)
  /\ (Item.length item = Item.width item ->
      _create_rectangle c (Item.length item) (Item.width item) r
      = _create_rectangle c (Item.length item) (Item.width item) r'
      /\ _is_valid_placement self c item r = _is_valid_placement self c item r'
      /\ _calculate_position_score self c item r
         = _calculate_position_score self c item r').
Proof.
  split.
  - intro Hr. unfold _create_rectangle. destruct c as [cx cy].
    apply Z.eqb_neq in Hr. now rewrite Hr.
  - intro Hsq.
    assert (Hrect : _create_rectangle c (Item.length item) (Item.width item) r
                    = _create_rectangle c (Item.length item) (Item.width item) r').
    { unfold _create_rectangle. destruct c as [cx cy]. rewrite Hsq.
      now destruct (Z.eqb r 0), (Z.eqb r' 0). }
    split; [exact Hrect|].
    unfold _is_valid_placement, _calculate_position_score. now rewrite Hrect.
Qed.
End ScoreBounds.

(** ** The further properties in the scenario *)

Section MoreWitnesses.
#[local] Existing Instance Rectilinear.kernel.

Ltac run := vm_compute; reflexivity.

Lemma wall_positions_within_wall_witness :
  0 < line_length (More.wall_start, More.wall_end)
  /\ (if Z.eqb (snd More.wall_candidate) 0
      then Item.length More.fridge else Item.width More.fridge)
     <= line_length (More.wall_start, More.wall_end).
Proof.
  destruct (wall_positions_within_wall (K := Rectilinear.kernel)
              More.wall_start More.wall_end More.fridge
              (fst More.wall_candidate) (snd More.wall_candidate))
    as (H1 & H2 & _).
  - vm_compute. left. reflexivity.
  - split; [exact H1|exact H2].
Defined.

Lemma wall_positions_none_witness :
  _generate_wall_positions (More.wall_start, More.short_end) Scenario.big_item = [].
Proof.
  apply wall_positions_none. right. split; vm_compute; reflexivity.
Defined.

Lemma wall_positions_left_of_wall_witness :
  exists t,
    0 <= t /\ t < 1
    /\ let sample := (fst More.wall_start + t * (fst More.wall_end - fst More.wall_start),
                      snd More.wall_start + t * (snd More.wall_end - snd More.wall_start)) in
       (fst (fst More.wall_candidate) - fst sample)
         * (fst More.wall_end - fst More.wall_start)
       + (snd (fst More.wall_candidate) - snd sample)
         * (snd More.wall_end - snd More.wall_start) == 0
       /\ 0 <= (fst More.wall_end - fst More.wall_start)
               * (snd (fst More.wall_candidate) - snd sample)
               - (snd More.wall_end - snd More.wall_start)
                 * (fst (fst More.wall_candidate) - fst sample).
Proof.
  apply (wall_positions_left_of_wall (K := Rectilinear.kernel)
           More.wall_start More.wall_end More.fridge
           (fst More.wall_candidate) (snd More.wall_candidate)).
  - vm_compute. discriminate.
  - vm_compute. discriminate.
  - vm_compute. left. reflexivity.
Defined.

Lemma interior_positions_grid_witness :
  contains_point (boundary_polygon Scenario.solver) (fst More.interior_candidate) = true.
Proof.
  destruct (interior_positions_grid (K := Rectilinear.kernel) Scenario.solver
              More.fridge (fst More.interior_candidate) (snd More.interior_candidate))
    as (H & _).
  - vm_compute. left. reflexivity.
  - exact H.
Defined.

Lemma parse_items_dims_witness :
  _parse_items [("shelf1", [500])] = inl IndexError.
Proof.
  apply parse_items_dims. constructor. simpl. lia.
Defined.

Lemma parse_items_stable_witness :
  exists parsed,
    parse_all More.tie_catalog = inr parsed
    /\ forall p a, filter (ties_with p a) More.tie_items = filter (ties_with p a) parsed.
Proof.
  apply parse_items_stable. run.
Defined.

Lemma best_position_maximal_witness :
  _is_valid_placement Scenario.solver (snd (fst More.best)) More.fridge (snd More.best)
  = true.
Proof.
  destruct (best_position_maximal (K := Rectilinear.kernel) Scenario.solver More.fridge
              (fst (fst More.best)) (snd (fst More.best)) (snd More.best))
    as (_ & H & _).
  - run.
  - exact H.
Defined.

Lemma later_valid_was_valid_witness :
  _is_valid_placement Scenario.solver (Placement.center Scenario.second)
    (Placement.item Scenario.second) (Placement.rotation Scenario.second) = true.
Proof.
  destruct (later_valid_was_valid (K := Rectilinear.kernel) [More.fridge]
              Scenario.solver More.after_fridge (Placement.item Scenario.second))
    as (H & _).
  - run.
  - apply H. run.
Defined.

Lemma solve_output_names_witness :
  NoDup (map Placement.d_item (placements_out (snd (solve Scenario.solver)))).
Proof.
  destruct (solve_output_names (K := Rectilinear.kernel) Scenario.boundary
              Scenario.door true Scenario.catalog Scenario.solver)
    as (H & _).
  - run.
  - simpl. constructor.
    + simpl. intros [H|[]]. discriminate.
    + constructor; [intros []|constructor].
  - exact H.
Defined.

Lemma solve_fridge_zones_witness :
  List.length (fridge_zones (fst (solve Scenario.solver)))
  = List.length (filter is_fridge (placements (fst (solve Scenario.solver)))).
Proof.
  apply (solve_fridge_zones (K := Rectilinear.kernel) Scenario.boundary
           Scenario.door true Scenario.catalog Scenario.solver).
  run.
Defined.

Lemma door_zone_inward_square_witness :
  exists p3 p4,
    _calculate_door_zone (Some [(0, 200); (0, 0)]) true
    = inr (Some [(0, 200); (0, 0); p3; p4])
    /\ fst p3 == 0 - (0 - 200) /\ snd p3 == 0 + (0 - 0)
    /\ fst p4 == 0 - (0 - 200) /\ snd p4 == 200 + (0 - 0).
Proof.
  apply (door_zone_inward_square (K := Rectilinear.kernel) (0, 200) (0, 0) []).
  vm_compute. discriminate.
Defined.

Lemma score_bounds_witness :
  exists s,
    _calculate_position_score Scenario.solver (700, 200) More.fridge 0 = Fin s
    /\ s <= inject_Z (Z.of_nat (touching_wall_count Scenario.solver
                         (_create_rectangle (700, 200) (Item.length More.fridge)
                            (Item.width More.fridge) 0))) * 10000.
Proof.
  destruct (score_bounds (K := Rectilinear.kernel) Scenario.solver (700, 200)
              More.fridge 0 rectilinear_distance_nonneg) as (_ & H).
  destruct H as (s & H1 & H2 & _).
  - vm_compute. discriminate.
  - exists s. split; [exact H1|exact H2].
Defined.
End MoreWitnesses.
